(** * karllm-client: the streaming decoder and the transcript assembler

    A shallow embedding of [chatWithLLM] (web-client/src/api.ts) and of
    [handleSend] with its fold step (web-client/src/components/ChatBox.tsx),
    together with the host functions they call: [TextDecoder] in stream mode
    (after the WHATWG Encoding Standard), [String.prototype.split] on the two
    regular expressions of the source, [startsWith], [slice], [trim],
    [JSON.parse], property access, [Array.prototype.join] and [String(...)]
    (after ECMA-262).

    A JavaScript string is a sequence of UTF-16 code units, so it is a
    [list Z] here; bytes read from the response body are a [list Z] too. *)

From Stdlib Require Import List ZArith Lia Bool String Ascii Wf_nat.
Import ListNotations.
Open Scope Z_scope.

(* ================================================================== *)
(** ** JavaScript strings *)

Definition jsstring := list Z.

(** The code units of an ASCII literal. *)
Definition js (s : string) : jsstring :=
  map (fun a => Z.of_nat (nat_of_ascii a)) (list_ascii_of_string s).

Definition DQ : jsstring := [34].   (* the double quote *)
Definition LF : jsstring := [10].
Definition CR : jsstring := [13].

Fixpoint jsstring_eqb (a b : jsstring) : bool :=
  match a, b with
  | [], [] => true
  | x :: a', y :: b' => (x =? y) && jsstring_eqb a' b'
  | _, _ => false
  end.

(** [s.startsWith(p)] *)
Fixpoint startsWith (s p : jsstring) : bool :=
  match p with
  | [] => true
  | c :: p' =>
      match s with
      | [] => false
      | d :: s' => (d =? c) && startsWith s' p'
      end
  end.

(** [s.slice(n)] for a non-negative [n]. *)
Definition slice (s : jsstring) (n : nat) : jsstring := skipn n s.

(** ECMA-262 WhiteSpace and LineTerminator, the code units [trim] strips. *)
Definition is_white_space (c : Z) : bool :=
  (c =? 0x09) || (c =? 0x0A) || (c =? 0x0B) || (c =? 0x0C) || (c =? 0x0D)
  || (c =? 0x20) || (c =? 0xA0) || (c =? 0x1680)
  || ((0x2000 <=? c) && (c <=? 0x200A))
  || (c =? 0x2028) || (c =? 0x2029) || (c =? 0x202F) || (c =? 0x205F)
  || (c =? 0x3000) || (c =? 0xFEFF).

Fixpoint trimStart (s : jsstring) : jsstring :=
  match s with
  | [] => []
  | c :: s' => if is_white_space c then trimStart s' else s
  end.

Definition trimEnd (s : jsstring) : jsstring := rev (trimStart (rev s)).

Definition trim (s : jsstring) : jsstring := trimEnd (trimStart s).

(* ================================================================== *)
(** ** UTF-8 and UTF-16 *)

(** The UTF-8 encoding of a scalar value (RFC 3629); the server's side of the
    wire. *)
Definition utf8_encode (c : Z) : list Z :=
  if c <? 0x80 then [c]
  else if c <? 0x800 then [0xC0 + c / 64; 0x80 + c mod 64]
  else if c <? 0x10000 then
    [0xE0 + c / 4096; 0x80 + (c / 64) mod 64; 0x80 + c mod 64]
  else
    [0xF0 + c / 262144; 0x80 + (c / 4096) mod 64;
     0x80 + (c / 64) mod 64; 0x80 + c mod 64].

Definition is_scalar_value (c : Z) : Prop :=
  (0 <= c < 0xD800) \/ (0xE000 <= c <= 0x10FFFF).

(** The code units of a scalar value in a JavaScript string. *)
Definition utf16_units (c : Z) : jsstring :=
  if c <? 0x10000 then [c]
  else [0xD800 + Z.shiftr (c - 0x10000) 10;
        0xDC00 + Z.land (c - 0x10000) 0x3FF].

(* ================================================================== *)
(** ** TextDecoder("utf-8"), stream mode *)

Module TextDecoder.

(** The state of the UTF-8 decoder of the Encoding Standard. *)
Record utf8_state := {
  code_point : Z;
  bytes_seen : Z;
  bytes_needed : Z;
  lower_boundary : Z;
  upper_boundary : Z
}.

Definition utf8_init : utf8_state :=
  {| code_point := 0; bytes_seen := 0; bytes_needed := 0;
     lower_boundary := 0x80; upper_boundary := 0xBF |}.

Definition REPLACEMENT : Z := 0xFFFD.

(** Step 3 of the handler: a byte met when no continuation byte is expected. *)
Definition utf8_lead (st : utf8_state) (byte : Z) : utf8_state * list Z :=
  if (0x00 <=? byte) && (byte <=? 0x7F) then (st, [byte])
  else if (0xC2 <=? byte) && (byte <=? 0xDF) then
    ({| code_point := Z.land byte 0x1F; bytes_seen := bytes_seen st;
        bytes_needed := 1;
        lower_boundary := lower_boundary st;
        upper_boundary := upper_boundary st |}, [])
  else if (0xE0 <=? byte) && (byte <=? 0xEF) then
    ({| code_point := Z.land byte 0xF; bytes_seen := bytes_seen st;
        bytes_needed := 2;
        lower_boundary := if byte =? 0xE0 then 0xA0 else lower_boundary st;
        upper_boundary := if byte =? 0xED then 0x9F else upper_boundary st |},
     [])
  else if (0xF0 <=? byte) && (byte <=? 0xF4) then
    ({| code_point := Z.land byte 0x7; bytes_seen := bytes_seen st;
        bytes_needed := 3;
        lower_boundary := if byte =? 0xF0 then 0x90 else lower_boundary st;
        upper_boundary := if byte =? 0xF4 then 0x8F else upper_boundary st |},
     [])
  else (st, [REPLACEMENT]).

(** The handler on one byte: the new state and the items it appends to the
    output (a scalar value, or U+FFFD for an error; the decoder is not
    fatal).  A byte outside the expected range is an error and is then
    processed again from the initial state. *)
Definition utf8_handler (st : utf8_state) (byte : Z) : utf8_state * list Z :=
  if bytes_needed st =? 0 then utf8_lead st byte
  else if negb ((lower_boundary st <=? byte) && (byte <=? upper_boundary st))
  then
    let '(st', out) := utf8_lead utf8_init byte in (st', REPLACEMENT :: out)
  else
    let cp := Z.lor (Z.shiftl (code_point st) 6) (Z.land byte 0x3F) in
    let seen := bytes_seen st + 1 in
    if negb (seen =? bytes_needed st) then
      ({| code_point := cp; bytes_seen := seen;
          bytes_needed := bytes_needed st;
          lower_boundary := 0x80; upper_boundary := 0xBF |}, [])
    else (utf8_init, [cp]).

Fixpoint utf8_run (st : utf8_state) (bytes : list Z) : utf8_state * list Z :=
  match bytes with
  | [] => (st, [])
  | b :: bytes' =>
      let '(st1, out1) := utf8_handler st b in
      let '(st2, out2) := utf8_run st1 bytes' in
      (st2, out1 ++ out2)
  end.


(** A decoder object: the UTF-8 decoder's state and the BOM-seen flag
    ([ignoreBOM] is false by default). *)
Record t := { utf8 : utf8_state; bom_seen : bool }.

(** [new TextDecoder("utf-8")] *)
Definition create : t := {| utf8 := utf8_init; bom_seen := false |}.

(** Serializing the decoded items: the first item of the stream is dropped
    when it is U+FEFF. *)
Definition serialize (seen : bool) (items : list Z) : bool * list Z :=
  match items with
  | [] => (seen, [])
  | i :: rest =>
      if seen then (true, items)
      else (true, if i =? 0xFEFF then rest else items)
  end.

(** [decoder.decode(value, { stream: true })]: the bytes of an incomplete
    sequence stay in the decoder's state. *)
Definition decode (d : t) (value : list Z) : t * jsstring :=
  let '(st, items) := utf8_run (utf8 d) value in
  let '(seen, out) := serialize (bom_seen d) items in
  ({| utf8 := st; bom_seen := seen |}, flat_map utf16_units out).

End TextDecoder.

(* ================================================================== *)
(** ** String.prototype.split on a regular expression

    [split] looks for a match at each index in turn; at a match of length
    [n] it closes the current piece and resumes after the match, otherwise
    it moves one code unit on.  A matcher gives the length of the match
    that starts at the head of its argument; the two expressions of the
    source never match the empty string. *)

Definition matcher := jsstring -> option nat.

(** [skip] counts the code units of the current match still to pass over;
    [cur] is the current piece, reversed. *)
Fixpoint split_go (m : matcher) (skip : nat) (cur : jsstring) (s : jsstring)
  : list jsstring :=
  match s with
  | [] => [rev cur]
  | c :: s' =>
      match skip with
      | S k => split_go m k cur s'
      | O =>
          match m s with
          | Some (S k) => rev cur :: split_go m k [] s'
          | _ => split_go m O (c :: cur) s'
          end
      end
  end.

Definition split (m : matcher) (s : jsstring) : list jsstring :=
  split_go m O [] s.

(** [\r?\n]: the optional carriage return is taken when it is there. *)
Definition match_eol : matcher := fun s =>
  match s with
  | c :: s' =>
      if c =? 13 then
        match s' with
        | d :: _ => if d =? 10 then Some 2%nat else None
        | [] => None
        end
      else if c =? 10 then Some 1%nat
      else None
  | [] => None
  end.

(** [\r?\n\r?\n] *)
Definition match_blank_line : matcher := fun s =>
  match match_eol s with
  | Some n1 =>
      match match_eol (skipn n1 s) with
      | Some n2 => Some (n1 + n2)%nat
      | None => None
      end
  | None => None
  end.

(** [events.pop()] on the result of a split, which is never empty. *)
Definition pop (l : list jsstring) : list jsstring * jsstring :=
  (removelast l, last l []).

(* ================================================================== *)
(** ** JSON values and JSON.parse *)

(** The values [JSON.parse] builds, and [undefined], which reading a missing
    property gives.  A number keeps its lexeme: the program never computes
    with one, it only turns it into a string.  An object keeps its members
    in source order, duplicates included. *)
#[warnings="-register-all"]
Inductive JSValue :=
| JUndefined
| JNull
| JBool (b : bool)
| JNumber (lexeme : jsstring)
| JString (s : jsstring)
| JArray (elements : list JSValue)
| JObject (members : list (jsstring * JSValue)).

Module JSON.

Inductive result (A : Type) :=
| Ok (a : A) (rest : jsstring)
| SyntaxError
| OutOfFuel.
Arguments Ok {A} a rest.
Arguments SyntaxError {A}.
Arguments OutOfFuel {A}.

(** JSON white space: space, tab, line feed, carriage return. *)
Definition is_ws (c : Z) : bool :=
  (c =? 0x20) || (c =? 0x09) || (c =? 0x0A) || (c =? 0x0D).

Fixpoint skip_ws (s : jsstring) : jsstring :=
  match s with
  | c :: s' => if is_ws c then skip_ws s' else s
  | [] => []
  end.

Definition is_digit (c : Z) : bool := (48 <=? c) && (c <=? 57).

(** The longest run of digits at the head. *)
Fixpoint digits (s : jsstring) : jsstring * jsstring :=
  match s with
  | c :: s' =>
      if is_digit c then let '(d, r) := digits s' in (c :: d, r) else ([], s)
  | [] => ([], [])
  end.

Definition hex_value (c : Z) : option Z :=
  if (48 <=? c) && (c <=? 57) then Some (c - 48)
  else if (65 <=? c) && (c <=? 70) then Some (c - 55)
  else if (97 <=? c) && (c <=? 102) then Some (c - 87)
  else None.

Definition hex4 (a b c d : Z) : option Z :=
  match hex_value a, hex_value b, hex_value c, hex_value d with
  | Some x, Some y, Some z, Some w => Some (((x * 16 + y) * 16 + z) * 16 + w)
  | _, _, _, _ => None
  end.

Definition escape (c : Z) : option Z :=
  if c =? 34 then Some 34            (* quote *)
  else if c =? 92 then Some 92       (* backslash *)
  else if c =? 47 then Some 47       (* slash *)
  else if c =? 98 then Some 8        (* b: backspace *)
  else if c =? 102 then Some 12      (* f: form feed *)
  else if c =? 110 then Some 10      (* n: line feed *)
  else if c =? 114 then Some 13      (* r: carriage return *)
  else if c =? 116 then Some 9       (* t: tab *)
  else None.

(** The characters of a string after its opening quote, up to and including
    the closing quote; [acc] is reversed. *)
Fixpoint string_chars (acc : jsstring) (s : jsstring) : result jsstring :=
  match s with
  | [] => SyntaxError
  | c :: s' =>
      if c =? 34 then Ok (rev acc) s'
      else if c =? 92 then
        match s' with
        | [] => SyntaxError
        | e :: s'' =>
            if e =? 117 then                      (* u and four hex digits *)
              match s'' with
              | h1 :: h2 :: h3 :: h4 :: s''' =>
                  match hex4 h1 h2 h3 h4 with
                  | Some u => string_chars (u :: acc) s'''
                  | None => SyntaxError
                  end
              | _ => SyntaxError
              end
            else
              match escape e with
              | Some u => string_chars (u :: acc) s''
              | None => SyntaxError
              end
        end
      else if c <? 0x20 then SyntaxError
      else string_chars (c :: acc) s'
  end.

(** A number: an optional minus sign; a zero, or a non-zero digit and any
    digits; optionally a point and one digit or more; optionally e or E, an
    optional sign and one digit or more. *)
Definition number_int (s : jsstring) : result jsstring :=
  match s with
  | c :: s' =>
      if c =? 48 then Ok [c] s'
      else if is_digit c then let '(d, r) := digits s' in Ok (c :: d) r
      else SyntaxError
  | [] => SyntaxError
  end.

Definition number_frac (s : jsstring) : result jsstring :=
  match s with
  | c :: s' =>
      if c =? 46 then
        match digits s' with
        | ([], _) => SyntaxError
        | (d, r) => Ok (c :: d) r
        end
      else Ok [] s
  | [] => Ok [] s
  end.

Definition number_exp (s : jsstring) : result jsstring :=
  match s with
  | c :: s' =>
      if (c =? 101) || (c =? 69) then
        let '(sign, s'') :=
          match s' with
          | g :: t => if (g =? 43) || (g =? 45) then ([g], t) else ([], s')
          | [] => ([], s')
          end in
        match digits s'' with
        | ([], _) => SyntaxError
        | (d, r) => Ok (c :: sign ++ d) r
        end
      else Ok [] s
  | [] => Ok [] s
  end.

Definition number (s : jsstring) : result jsstring :=
  let '(minus, s0) :=
    match s with
    | c :: s' => if c =? 45 then ([c], s') else ([], s)
    | [] => ([], s)
    end in
  match number_int s0 with
  | Ok i s1 =>
      match number_frac s1 with
      | Ok f s2 =>
          match number_exp s2 with
          | Ok e s3 => Ok (minus ++ i ++ f ++ e) s3
          | SyntaxError => SyntaxError
          | OutOfFuel => OutOfFuel
          end
      | SyntaxError => SyntaxError
      | OutOfFuel => OutOfFuel
      end
  | SyntaxError => SyntaxError
  | OutOfFuel => OutOfFuel
  end.

(** A value, with the white space before it; [elements] and [members] read
    what follows an opening bracket or a comma. *)
Fixpoint value (fuel : nat) (s : jsstring) : result JSValue :=
  match fuel with
  | O => OutOfFuel
  | S fuel' =>
      match skip_ws s with
      | [] => SyntaxError
      | c :: s' =>
          if c =? 123 then                               (* { *)
            match skip_ws s' with
            | d :: s'' =>
                if d =? 125 then Ok (JObject []) s''
                else members fuel' [] s'
            | [] => SyntaxError
            end
          else if c =? 91 then                           (* [ *)
            match skip_ws s' with
            | d :: s'' =>
                if d =? 93 then Ok (JArray []) s''
                else elements fuel' [] s'
            | [] => SyntaxError
            end
          else if c =? 34 then
            match string_chars [] s' with
            | Ok str r => Ok (JString str) r
            | SyntaxError => SyntaxError
            | OutOfFuel => OutOfFuel
            end
          else if startsWith (c :: s') (js "true") then
            Ok (JBool true) (skipn 4 (c :: s'))
          else if startsWith (c :: s') (js "false") then
            Ok (JBool false) (skipn 5 (c :: s'))
          else if startsWith (c :: s') (js "null") then
            Ok JNull (skipn 4 (c :: s'))
          else
            match number (c :: s') with
            | Ok n r => Ok (JNumber n) r
            | SyntaxError => SyntaxError
            | OutOfFuel => OutOfFuel
            end
      end
  end
with elements (fuel : nat) (acc : list JSValue) (s : jsstring)
  : result JSValue :=
  match fuel with
  | O => OutOfFuel
  | S fuel' =>
      match value fuel' s with
      | Ok v r =>
          match skip_ws r with
          | c :: r' =>
              if c =? 44 then elements fuel' (v :: acc) r'
              else if c =? 93 then Ok (JArray (rev (v :: acc))) r'
              else SyntaxError
          | [] => SyntaxError
          end
      | SyntaxError => SyntaxError
      | OutOfFuel => OutOfFuel
      end
  end
with members (fuel : nat) (acc : list (jsstring * JSValue)) (s : jsstring)
  : result JSValue :=
  match fuel with
  | O => OutOfFuel
  | S fuel' =>
      match skip_ws s with
      | q :: s1 =>
          if q =? 34 then
            match string_chars [] s1 with
            | Ok key s2 =>
                match skip_ws s2 with
                | colon :: s3 =>
                    if colon =? 58 then
                      match value fuel' s3 with
                      | Ok v r =>
                          match skip_ws r with
                          | c :: r' =>
                              if c =? 44 then
                                members fuel' ((key, v) :: acc) r'
                              else if c =? 125 then
                                Ok (JObject (rev ((key, v) :: acc))) r'
                              else SyntaxError
                          | [] => SyntaxError
                          end
                      | SyntaxError => SyntaxError
                      | OutOfFuel => OutOfFuel
                      end
                    else SyntaxError
                | [] => SyntaxError
                end
            | SyntaxError => SyntaxError
            | OutOfFuel => OutOfFuel
            end
          else SyntaxError
      | [] => SyntaxError
      end
  end.

(** [JSON.parse(text)]: one value, white space allowed around it; [None] is
    the SyntaxError it throws.  The fuel is never used up (see
    [parse_fuel]). *)
Definition parse_with (fuel : nat) (text : jsstring) : result JSValue :=
  match value fuel text with
  | Ok v r =>
      match skip_ws r with
      | [] => Ok v []
      | _ :: _ => SyntaxError
      end
  | SyntaxError => SyntaxError
  | OutOfFuel => OutOfFuel
  end.

Definition parse (text : jsstring) : option JSValue :=
  match parse_with (2 * List.length text + 1) text with
  | Ok v _ => Some v
  | _ => None
  end.

End JSON.

(* ================================================================== *)
(** ** Reading a property, String(...) and Array.prototype.join *)

Definition DONE : jsstring := js "[DONE]".

(** What a JavaScript exception carries, as far as this program tells them
    apart: the two errors [chatWithLLM] constructs, the TypeError of the
    language, and a rejected [fetch] or [read] (aborted, or failed). *)
Inductive exn :=
| StreamRequestFailed (status : Z)   (* Stream request failed: status *)
| NoResponseBody                     (* No response body *)
| TypeError
| AbortError
| NetworkError.

(** The own property [key] of an object: the last member of that name. *)
Definition own_property (key : jsstring) (members : list (jsstring * JSValue))
  : option JSValue :=
  fold_left
    (fun found m => if jsstring_eqb (fst m) key then Some (snd m) else found)
    members None.

(** [msg.text]: a TypeError on [null] and [undefined]; the own property of
    an object; [undefined] where there is none, and on arrays, strings,
    numbers and booleans, whose prototypes have no such property. *)
Definition get_text (msg : JSValue) : exn + JSValue :=
  match msg with
  | JUndefined | JNull => inl TypeError
  | JObject ms =>
      match own_property (js "text") ms with
      | Some v => inr v
      | None => inr JUndefined
      end
  | _ => inr JUndefined
  end.

(** [v === s] for a string [s]. *)
Definition strict_eq_string (v : JSValue) (s : jsstring) : bool :=
  match v with
  | JString t => jsstring_eqb t s
  | _ => false
  end.



Definition has_own (key : jsstring) (members : list (jsstring * JSValue))
  : bool :=
  match own_property key members with Some _ => true | None => false end.

(** The pieces joined, with [sep] between them. *)
Fixpoint join_strings (sep : jsstring) (l : list jsstring) : jsstring :=
  match l with
  | [] => []
  | [x] => x
  | x :: l' => x ++ sep ++ join_strings sep l'
  end.

Fixpoint sequence (l : list (option jsstring)) : option (list jsstring) :=
  match l with
  | [] => Some []
  | Some x :: l' =>
      match sequence l' with Some r => Some (x :: r) | None => None end
  | None :: _ => None
  end.

Section Coercion.

(** [String(n)] for the number a JSON lexeme denotes: floating point, so it
    is left open. *)
Variable Number_toString : jsstring -> jsstring.

(** [String(v)]; [None] is a TypeError.  An array is its elements joined
    with a comma; an object made by [JSON.parse] is [[object Object]], unless
    it has a member named toString, which hides the method of the prototype
    and is not callable: no primitive value is found. *)
Fixpoint ToString (v : JSValue) : option jsstring :=
  match v with
  | JUndefined => Some (js "undefined")
  | JNull => Some (js "null")
  | JBool true => Some (js "true")
  | JBool false => Some (js "false")
  | JNumber n => Some (Number_toString n)
  | JString s => Some s
  | JArray l =>
      option_map (join_strings (js ","))
        (sequence
           (map (fun e =>
                   match e with
                   | JUndefined | JNull => Some []
                   | _ => ToString e
                   end) l))
  | JObject ms =>
      if has_own (js "toString") ms then None
      else Some (js "[object Object]")
  end.

(** An element of an array, as [join] takes it: nothing for [undefined] and
    [null]. *)
Definition element_string (e : JSValue) : option jsstring :=
  match e with
  | JUndefined | JNull => Some []
  | _ => ToString e
  end.

(** [elements.join(sep)] *)
Definition join (sep : jsstring) (elements : list JSValue) : option jsstring :=
  option_map (join_strings sep) (sequence (map element_string elements)).

(** The text of a fragment: [text.join] with the empty separator for an
    array, [String(text)] for what is neither an array nor a string, a
    string as it is. *)
Definition normalize (text : JSValue) : option jsstring :=
  match text with
  | JArray l => join [] l
  | JString s => Some s
  | _ => ToString text
  end.

(* ================================================================== *)
(** ** api.ts: chatWithLLM *)

Record Body := {
  chunks : list (list Z);      (* what the successive reads deliver *)
  failure : option exn         (* after them: done, or a rejected read *)
}.

Record Response := { ok : bool; status : Z; body : option Body }.

Inductive FetchResult :=
| Rejected (e : exn)
| Resolved (res : Response).

Record AbortSignal := { aborted : bool }.

Record AbortController := { signal : AbortSignal }.

Record Request := {
  url : jsstring;
  prompt_sent : jsstring;           (* body: { prompt: prompt } *)
  signal_sent : option AbortSignal
}.

Inductive completion :=
| Returned (reader_cancelled : bool)
| Threw (e : exn).

(** How a line leaves the loops: on to the next one, out of the function
    after [reader.cancel()], or by an exception. *)
Inductive control :=
| Continue
| Return_cancelled
| Throw (e : exn).

(** The check the source evaluates and drops inside the branch of the bare
    sentinel. *)
Definition is_done_array (text : JSValue) : bool :=
  match text with
  | JArray [e] => strict_eq_string e DONE
  | _ => false
  end.

Section Decoder.

(** The caller's state and its callback. *)
Variable W : Type.
Variable onChunk : jsstring -> W -> W.

(** The body of the inner loop, for one line of an event. *)
Definition handle_line (line : jsstring) (w : W) : control * W :=
  if negb (startsWith line (js "data:")) then (Continue, w)
  else
    let raw := trim (slice line (List.length (js "data:"))) in
    if jsstring_eqb raw DONE then (Return_cancelled, w)
    else
      match JSON.parse raw with
      | None => (Continue, onChunk raw w)                   (* catch *)
      | Some msg =>
          match get_text msg with
          | inl _ => (Continue, onChunk raw w)              (* catch *)
          | inr text =>
              if strict_eq_string text DONE then
                let _ := is_done_array text in
                (Return_cancelled, w)
              else
                match normalize text with
                | Some t => (Continue, onChunk t w)
                | None => (Throw TypeError, w)
                end
          end
      end.

Fixpoint for_lines (lines : list jsstring) (w : W) : control * W :=
  match lines with
  | [] => (Continue, w)
  | line :: lines' =>
      match handle_line line w with
      | (Continue, w') => for_lines lines' w'
      | stop => stop
      end
  end.

Fixpoint for_events (events : list jsstring) (w : W) : control * W :=
  match events with
  | [] => (Continue, w)
  | event :: events' =>
      match for_lines (split match_eol event) w with
      | (Continue, w') => for_events events' w'
      | stop => stop
      end
  end.

(** The [while (true)] loop over the reads of the body. *)
Fixpoint read_loop (reads : list (list Z)) (failure : option exn)
    (decoder : TextDecoder.t) (buffer : jsstring) (w : W) : completion * W :=
  match reads with
  | [] =>
      match failure with
      | None => (Returned false, w)                  (* done: break *)
      | Some e => (Threw e, w)
      end
  | value :: reads' =>
      let '(decoder', text) := TextDecoder.decode decoder value in
      let buffer := buffer ++ text in
      let '(events, buffer) := pop (split match_blank_line buffer) in
      match for_events events w with
      | (Continue, w') => read_loop reads' failure decoder' buffer w'
      | (Return_cancelled, w') => (Returned true, w')
      | (Throw e, w') => (Threw e, w')
      end
  end.

Variable fetch : Request -> W -> FetchResult * W.

Definition BASE_URL : jsstring := js "http://10.224.174.3:34199".

Definition chatWithLLM (prompt : jsstring) (signal : option AbortSignal)
    (w : W) : completion * W :=
  let '(res, w) :=
    fetch {| url := BASE_URL ++ js "/chat/stream";
             prompt_sent := prompt; signal_sent := signal |} w in
  match res with
  | Rejected e => (Threw e, w)
  | Resolved res =>
      if negb (ok res) then (Threw (StreamRequestFailed (status res)), w)
      else
        match body res with
        | None => (Threw NoResponseBody, w)
        | Some b =>
            read_loop (chunks b) (failure b) TextDecoder.create [] w
        end
  end.

End Decoder.

(** The decoder run on a response, its callback recording the fragments in
    the order it is called with them. *)
Definition fragments (res : FetchResult) : completion * list jsstring :=
  chatWithLLM (list jsstring) (fun chunk tr => tr ++ [chunk])
    (fun _ tr => (res, tr)) [] None [].

Definition ok_response (reads : list (list Z)) (failure : option exn)
  : FetchResult :=
  Resolved {| ok := true; status := 200;
              body := Some {| chunks := reads; failure := failure |} |}.

(* ================================================================== *)
(** ** ChatBox.tsx: the transcript and handleSend *)

Inductive Role := user | assistant.

Definition Role_eqb (a b : Role) : bool :=
  match a, b with
  | user, user | assistant, assistant => true
  | _, _ => false
  end.

Record Message := { role : Role; content : jsstring }.

Inductive LogEntry :=
| console_error (label : jsstring) (err : exn).

(** The state of the component ([useState]) and what it does to the world
    around it: the console and the requests sent. *)
Record World := {
  messages : list Message;
  streaming : bool;
  abortController : option AbortController;
  console : list LogEntry;
  requests : list Request
}.

Definition setMessages (f : list Message -> list Message) (w : World)
  : World :=
  {| messages := f (messages w); streaming := streaming w;
     abortController := abortController w; console := console w;
     requests := requests w |}.

Definition setStreaming (b : bool) (w : World) : World :=
  {| messages := messages w; streaming := b;
     abortController := abortController w; console := console w;
     requests := requests w |}.

Definition setAbortController (c : option AbortController) (w : World)
  : World :=
  {| messages := messages w; streaming := streaming w;
     abortController := c; console := console w;
     requests := requests w |}.

Definition log_error (label : jsstring) (err : exn) (w : World) : World :=
  {| messages := messages w; streaming := streaming w;
     abortController := abortController w;
     console := console w ++ [console_error label err];
     requests := requests w |}.

(** [fetch], against a network that answers [net]. *)
Definition send_request (net : Request -> FetchResult) (r : Request)
    (w : World) : FetchResult * World :=
  (net r,
   {| messages := messages w; streaming := streaming w;
      abortController := abortController w; console := console w;
      requests := requests w ++ [r] |}).

(** The updater the callback hands to [setMessages]: the fold step. *)
Definition fold_chunk (chunk : jsstring) (message_state : list Message)
  : list Message :=
  match rev message_state with
  | [] => message_state                          (* length === 0 *)
  | last :: _ =>
      if negb (Role_eqb (role last) assistant) then
        message_state ++ [{| role := assistant; content := chunk |}]
      else
        let updated :=
          {| role := role last; content := content last ++ chunk |} in
        removelast message_state ++ [updated]
  end.

(** The members of the object [useImperativeHandle] exposes, which are those
    of the interface [ChatBoxHandle]. *)
Definition ChatBoxHandle : list string := ["handleSend"; "streaming"]%string.

Definition handleSend (net : Request -> FetchResult) (input : jsstring)
    (w : World) : World :=
  match trim input with
  | [] => w                                              (* !input.trim() *)
  | _ :: _ =>
      let w := setMessages
                 (fun s => s ++ [{| role := user; content := input |}]) w in
      let w := setMessages
                 (fun s => s ++ [{| role := assistant; content := [] |}]) w in
      let w := setStreaming true w in
      let controller := {| signal := {| aborted := false |} |} in
      let w := setAbortController (Some controller) w in
      let '(outcome, w) :=
        chatWithLLM World
          (fun chunk => setMessages (fold_chunk chunk))
          (send_request net) input (Some (signal controller)) w in
      let w :=
        match outcome with
        | Threw err => log_error (js "Streaming error:") err w   (* catch *)
        | Returned _ => w
        end in
      setStreaming false w                                      (* finally *)
  end.

End Coercion.

(* ================================================================== *)
(** ** Definitions the statements use *)

Definition prepend (p : jsstring) (l : list jsstring) : list jsstring :=
  match l with
  | h :: t => (p ++ h) :: t
  | [] => []
  end.

(** A parser that answers leaves less than it was given. *)
Definition consumes_at {A} (p : jsstring -> JSON.result A) (s : jsstring)
  : Prop :=
  p s <> JSON.OutOfFuel /\
  forall a r, p s = JSON.Ok a r -> (List.length r < List.length s)%nat.

Definition consumes {A} (p : jsstring -> JSON.result A) : Prop :=
  forall s, consumes_at p s.

(** The same, when something has been read already. *)
Definition advances {A} (p : jsstring -> JSON.result A) : Prop :=
  forall s, p s <> JSON.OutOfFuel /\
            forall a r, p s = JSON.Ok a r ->
                        (List.length r <= List.length s)%nat.

(** The callback that records what it is called with. *)
Definition record_chunk (chunk : jsstring) (tr : list jsstring)
  : list jsstring := tr ++ [chunk].

(** The callback called on each fragment in turn. *)
Definition play {W} (onChunk : jsstring -> W -> W) (frags : list jsstring)
    (w : W) : W :=
  fold_left (fun w f => onChunk f w) frags w.

(** The transcript after the fragments have been folded in, one by one. *)
Definition fold_all (frags : list jsstring) (message_state : list Message)
  : list Message :=
  fold_left (fun ms f => fold_chunk f ms) frags message_state.

(** The request [handleSend] makes for an input. *)
Definition request_for (input : jsstring) : Request :=
  {| url := BASE_URL ++ js "/chat/stream";
     prompt_sent := input;
     signal_sent := Some {| aborted := false |} |}.

(** What [console.error] adds for a completion. *)
Definition logged (c : completion) : list LogEntry :=
  match c with
  | Threw err => [console_error (js "Streaming error:") err]
  | Returned _ => []
  end.

(** ** Wire inputs *)

(** An event of one payload line, with the blank line that ends it. *)
Definition data_event (payload : jsstring) : jsstring :=
  js "data: " ++ payload ++ LF ++ LF.

(** The JSON text of an object whose only member is [text]. *)
Definition text_object (value : jsstring) : jsstring :=
  js "{" ++ DQ ++ js "text" ++ DQ ++ js ":" ++ value ++ js "}".

Definition quoted (s : string) : jsstring := DQ ++ js s ++ DQ.

Definition wire_hello : list Z :=
  data_event (text_object (quoted "Hel"))
  ++ data_event (text_object (quoted "lo"))
  ++ data_event DONE.

Definition wire_done : list Z := data_event DONE.

(** [String(n)] on the lexemes that are what [String] prints already, such
    as 0, 7 and 1.5; it instantiates the number printer where a statement
    is evaluated on an input. *)
Definition printed_lexeme (lexeme : jsstring) : jsstring := lexeme.

Definition empty_world : World :=
  {| messages := []; streaming := false; abortController := None;
     console := []; requests := [] |}.

(** A network whose answer is read to the end of one event and then fails
    with [failure], or ends. *)
Definition one_event_then (failure : option exn) (_ : Request) : FetchResult :=
  ok_response [data_event (text_object (quoted "Hi"))] failure.

Definition server_error (_ : Request) : FetchResult :=
  Resolved {| ok := false; status := 500; body := None |}.

(** One event whose text is e with an acute accent, C3 A9: read at once, and
    read in three chunks cut inside the character and inside the blank
    line. *)
Definition accent_at_once : list (list Z) :=
  [js "data: {" ++ DQ ++ js "text" ++ DQ ++ js ":" ++ DQ
   ++ [0xC3; 0xA9] ++ DQ ++ js "}" ++ LF ++ LF].

Definition accent_in_chunks : list (list Z) :=
  [js "data: {" ++ DQ ++ js "text" ++ DQ ++ js ":" ++ DQ ++ [0xC3];
   [0xA9] ++ DQ ++ js "}" ++ LF;
   LF].

(* ================================================================== *)
(** ** ChatBox.tsx: renderMessageContent *)

(** [s.split(sep)] for a string [sep] that is not empty: the separator
    matches where the text starts with it. *)
Definition match_literal (sep : jsstring) : matcher :=
  fun s => if startsWith s sep then Some (List.length sep) else None.

(** [s.includes(sep)] *)
Fixpoint includes (s sep : jsstring) : bool :=
  match s with
  | [] => startsWith [] sep
  | _ :: s' => startsWith s sep || includes s' sep
  end.

Definition THINK : jsstring := js "<think>".
Definition END_THINK : jsstring := js "</think>".

(** What is rendered: one markdown block, or the text before the thoughts,
    the thoughts in their own block, and the response, which is [undefined]
    while the closing tag has not arrived. *)
Inductive Rendered :=
| Markdown (content : jsstring)
| WithThoughts (before thoughts : jsstring) (response : option jsstring).

(** The destructuring patterns take the first two parts and drop the rest;
    [split] never gives the empty array. *)
Definition renderMessageContent (content : jsstring) : Rendered :=
  match split (match_literal THINK) content with
  | before :: thoughtsAndResponse :: _ =>
      match split (match_literal END_THINK) thoughtsAndResponse with
      | thoughts :: rest => WithThoughts before thoughts (hd_error rest)
      | [] => WithThoughts before [] None
      end
  | _ => Markdown content                            (* parts.length <= 1 *)
  end.

(* ================================================================== *)
(** ** api.ts: fetchModelList *)

(** [v[key]] for a key that is no index and no built-in property, as
    [get_text] for [text]. *)
Definition get_property (key : jsstring) (v : JSValue) : exn + JSValue :=
  match v with
  | JUndefined | JNull => inl TypeError
  | JObject ms =>
      match own_property key ms with
      | Some x => inr x
      | None => inr JUndefined
      end
  | _ => inr JUndefined
  end.

Definition APOSTROPHE : Z := 39.

(** The longest run of code units other than the apostrophe, and what
    follows it. *)
Fixpoint span_name (s : jsstring) : jsstring * jsstring :=
  match s with
  | c :: s' =>
      if c =? APOSTROPHE then ([], s)
      else let '(run, rest) := span_name s' in (c :: run, rest)
  | [] => ([], [])
  end.

(** The expression '([^']+)' at the head of a text: the captured group and
    the length of the match.  The group is greedy and stops only at an
    apostrophe or at the end, so there is nothing to backtrack to. *)
Definition match_quoted (s : jsstring) : option (jsstring * nat) :=
  match s with
  | c :: t =>
      if c =? APOSTROPHE then
        match span_name t with
        | ((_ :: _) as name, _ :: _) =>
            Some (name, (List.length name + 2)%nat)
        | _ => None
        end
      else None
  | [] => None
  end.

(** The loop [while ((m = re.exec(raw)) !== null) models.push(m[1])] with
    the global flag: each search starts where the last match ended. *)
Fixpoint exec_loop (skip : nat) (s : jsstring) : list jsstring :=
  match s with
  | [] => []
  | _ :: s' =>
      match skip with
      | S k => exec_loop k s'
      | O =>
          match match_quoted s with
          | Some (name, n) => name :: exec_loop (n - 1) s'
          | None => exec_loop O s'
          end
      end
  end.

Definition quoted_names (raw : jsstring) : list jsstring := exec_loop O raw.

Record JsonResponse := {
  json_ok : bool;
  json_status : Z;
  json_text : jsstring        (* what res.json() parses *)
}.

Inductive ModelList :=
| Models (names : list JSValue)
| ModelListFetchFailed (status : Z)    (* Model list fetch failed: status *)
| ModelListSyntaxError                 (* res.json() rejects *)
| ModelListTypeError                   (* data is null *)
| ModelListRejected (e : exn).         (* fetch rejects *)

Definition fetchModelList (answer : exn + JsonResponse) : ModelList :=
  match answer with
  | inl e => ModelListRejected e
  | inr res =>
      if negb (json_ok res) then ModelListFetchFailed (json_status res)
      else
        match JSON.parse (json_text res) with
        | None => ModelListSyntaxError
        | Some data =>
            match get_property (js "supported_models") data with
            | inl _ => ModelListTypeError
            | inr (JArray raw) => Models raw
            | inr (JString raw) => Models (map JString (quoted_names raw))
            | inr _ => Models []
            end
        end
  end.

(** A text in which names stand between apostrophes: before each name
    some text, then the name between two apostrophes, and some text after
    the last one.  With an opening bracket before the first name, a comma
    and a space before the others and a closing bracket at the end, this
    is ['a', 'b']. *)
Definition between_apostrophes (items : list (jsstring * jsstring))
    (tail : jsstring) : jsstring :=
  flat_map
    (fun item => fst item ++ [APOSTROPHE] ++ snd item ++ [APOSTROPHE]) items
  ++ tail.

(* ================================================================== *)
(** ** App.tsx: handleSend *)

Module App.

(** The state of [App] that [handleSend] reads and writes; [chatRef] is the
    mounted [ChatBox], if any. *)
Record state := {
  input : jsstring;
  isStreamingComplete : bool;
  chatRef : option World
}.

(** [ChatBox]'s [handleSend] catches what it throws, so the [catch] here
    is never entered. *)
Definition handleSend (Number_toString : jsstring -> jsstring)
    (net : Request -> FetchResult) (a : state) : state :=
  let text := trim (input a) in
  match text, chatRef a with
  | _ :: _, Some chat =>
      {| input := [];                                      (* setInput *)
         isStreamingComplete := true;                      (* finally *)
         chatRef := Some (handleSend Number_toString net text chat) |}
  | _, _ =>                                                (* return *)
      {| input := input a;
         isStreamingComplete := true;                      (* finally *)
         chatRef := chatRef a |}
  end.

End App.

(* ================================================================== *)
(** ** More definitions the statements use *)


(** What one send adds to the transcript. *)
Definition exchange (Number_toString : jsstring -> jsstring)
    (net : Request -> FetchResult) (input : jsstring) : list Message :=
  match trim input with
  | [] => []
  | _ :: _ =>
      [{| role := user; content := input |};
       {| role := assistant;
          content :=
            List.concat
              (snd (fragments Number_toString (net (request_for input)))) |}]
  end.


(** The texts of successive reads, one after the other. *)
Fixpoint decode_reads (d : TextDecoder.t) (reads : list (list Z))
  : TextDecoder.t * jsstring :=
  match reads with
  | [] => (d, [])
  | r :: reads' =>
      let '(d1, t1) := TextDecoder.decode d r in
      let '(d2, t2) := decode_reads d1 reads' in
      (d2, t1 ++ t2)
  end.

(** A text without a leading byte-order mark. *)
Definition strip_bom (cs : list Z) : list Z :=
  match cs with
  | c :: cs' => if c =? 0xFEFF then cs' else cs
  | [] => []
  end.

(** Events as a server writes them: each line followed by a blank line. *)
Definition frames (eol : jsstring) (lines : list jsstring) : jsstring :=
  flat_map (fun line => line ++ eol ++ eol) lines.

Definition no_line_break (s : jsstring) : Prop :=
  forall c, In c s -> c <> 10 /\ c <> 13.

(** The characters between the quotes of a JSON string, and the string they
    denote: a code unit from U+0020 on other than the quote and the
    backslash stands for itself; the eight short escapes; a backslash, u
    and four hexadecimal digits. *)
Inductive json_chars : jsstring -> jsstring -> Prop :=
| chars_nil : json_chars [] []
| chars_plain c body s :
    0x20 <= c -> c <> 34 -> c <> 92 ->
    json_chars body s -> json_chars (c :: body) (c :: s)
| chars_escape e u body s :
    JSON.escape e = Some u ->
    json_chars body s -> json_chars (92 :: e :: body) (u :: s)
| chars_unicode h1 h2 h3 h4 u body s :
    JSON.hex4 h1 h2 h3 h4 = Some u ->
    json_chars body s ->
    json_chars (92 :: 117 :: h1 :: h2 :: h3 :: h4 :: body) (u :: s).

(** The payload line of a text event. *)
Definition text_line (body : jsstring) : jsstring :=
  js "data: " ++ text_object (DQ ++ body ++ DQ).

(** What [trim] strips from both ends. *)
Definition blank (s : jsstring) : Prop :=
  forall c, In c s -> is_white_space c = true.

(** A separator whose first code unit does not come again in it. *)
Definition starts_once (sep : jsstring) : Prop :=
  match sep with
  | c :: rest => ~ In c rest
  | [] => False
  end.

(** What the expression of fetchModelList captures. *)
Definition is_name (n : jsstring) : Prop := n <> [] /\ ~ In APOSTROPHE n.

(** ** More inputs *)

Definition typing_hello : App.state :=
  {| App.input := js "  hello ";
     App.isStreamingComplete := true;
     App.chatRef := Some empty_world |}.

Definition two_models : JsonResponse :=
  {| json_ok := true; json_status := 200;
     json_text :=
       js "{" ++ quoted "supported_models" ++ js ": "
       ++ DQ
       ++ between_apostrophes
            [(js "[", js "llama-3"); (js ", ", js "qwen 2.5")] (js "]")
       ++ DQ ++ js "}" |}.

(** Two texts, the first with an escaped quote and an accent, sent with
    CR LF and read in chunks cut inside the accent and inside the blank
    line. *)
Definition two_texts_bodies : list jsstring :=
  [js "caf" ++ [0xE9] ++ js " \" ++ DQ; js "ok"].

Definition two_texts_scalars : list Z :=
  frames (CR ++ LF) (map text_line two_texts_bodies).

Definition two_texts_reads : list (list Z) :=
  [firstn 19 (flat_map utf8_encode two_texts_scalars);
   firstn 8 (skipn 19 (flat_map utf8_encode two_texts_scalars));
   skipn 27 (flat_map utf8_encode two_texts_scalars)].

(* ================================================================== *)
(** * Properties *)

(** ** JSON.parse never runs out of fuel *)

Module JSONFacts.
Import JSON.

Lemma skip_ws_length (s : jsstring) :
  (List.length (skip_ws s) <= List.length s)%nat.
Proof.
  induction s as [|c s IH]; simpl; [lia|].
  destruct (is_ws c); simpl; lia.
Qed.

Lemma digits_length (s : jsstring) :
  (List.length (snd (digits s)) <= List.length s)%nat.
Proof.
  induction s as [|c s IH]; simpl; [lia|].
  destruct (is_digit c); [|simpl; lia].
  destruct (digits s) as [d r]; simpl in *; lia.
Qed.


Lemma string_chars_consumes (acc : jsstring) : consumes (string_chars acc).
Proof.
  intros s. remember (List.length s) as n eqn:En.
  revert s En acc. induction n as [n IHn] using lt_wf_ind. intros s -> acc.
  assert (IH : forall t, (List.length t < List.length s)%nat ->
                         forall acc', consumes_at (string_chars acc') t).
  { intros t Lt acc'. exact (IHn _ Lt t eq_refl acc'). }
  clear IHn. unfold consumes_at in *.
  destruct s as [|c s]; simpl.
  - split; [discriminate|discriminate].
  - destruct (c =? 34).
    { split; [discriminate|]. intros a r H; inversion H; subst; lia. }
    destruct (c =? 92).
    + destruct s as [|e s]; [split; discriminate|].
      destruct (e =? 117).
      * destruct s as [|h1 [|h2 [|h3 [|h4 s]]]]; try (split; discriminate).
        destruct (hex4 h1 h2 h3 h4); [|split; discriminate].
        destruct (IH s ltac:(simpl; lia) (z :: acc)) as [H1 H2].
        split; [exact H1|]. intros a r H. apply H2 in H. simpl; lia.
      * destruct (escape e); [|split; discriminate].
        destruct (IH s ltac:(simpl; lia) (z :: acc)) as [H1 H2].
        split; [exact H1|]. intros a r H. apply H2 in H. simpl; lia.
    + destruct (c <? 32); [split; discriminate|].
      destruct (IH s ltac:(simpl; lia) (c :: acc)) as [H1 H2].
      split; [exact H1|]. intros a r H. apply H2 in H. simpl; lia.
Qed.

Lemma number_int_consumes : consumes number_int.
Proof.
  intros [|c s]; unfold consumes_at; simpl; [split; discriminate|].
  destruct (c =? 48).
  { split; [discriminate|]. intros a r H; inversion H; subst; lia. }
  destruct (is_digit c); [|split; discriminate].
  pose proof (digits_length s) as L. destruct (digits s) as [d r0].
  split; [discriminate|]. intros a r H; inversion H; subst; simpl in *; lia.
Qed.

Lemma number_frac_advances : advances number_frac.
Proof.
  intros [|c s]; simpl.
  { split; [discriminate|]. intros a r H; inversion H; subst; simpl; lia. }
  destruct (c =? 46).
  - pose proof (digits_length s) as L. destruct (digits s) as [[|d0 d] r0].
    + split; discriminate.
    + split; [discriminate|].
      intros a r H; inversion H; subst; simpl in *; lia.
  - split; [discriminate|]. intros a r H; inversion H; subst; simpl; lia.
Qed.

Lemma number_exp_advances : advances number_exp.
Proof.
  intros [|c s]; simpl.
  { split; [discriminate|]. intros a r H; inversion H; subst; simpl; lia. }
  destruct ((c =? 101) || (c =? 69)).
  - assert (E : exists sg s2,
               match s with
               | g :: t => if (g =? 43) || (g =? 45) then ([g], t) else ([], s)
               | [] => ([], s)
               end = (sg, s2) /\ (List.length s2 <= List.length s)%nat).
    { destruct s as [|g t]; [exists [], []; split; [reflexivity|simpl; lia]|].
      destruct ((g =? 43) || (g =? 45)).
      - exists [g], t. split; [reflexivity|simpl; lia].
      - exists [], (g :: t). split; [reflexivity|lia]. }
    destruct E as (sg & s2 & -> & L2).
    pose proof (digits_length s2) as L. destruct (digits s2) as [[|d0 d] r0].
    + split; discriminate.
    + split; [discriminate|].
      intros a r H; inversion H; subst; simpl in *; lia.
  - split; [discriminate|]. intros a r H; inversion H; subst; simpl; lia.
Qed.

Lemma number_consumes : consumes number.
Proof.
  intros s. unfold number, consumes_at.
  assert (E : exists mi s0,
             match s with
             | c :: s' => if c =? 45 then ([c], s') else ([], s)
             | [] => ([], s)
             end = (mi, s0) /\ (List.length s0 <= List.length s)%nat).
  { destruct s as [|c t]; [exists [], []; split; [reflexivity|simpl; lia]|].
    destruct (c =? 45).
    - exists [c], t. split; [reflexivity|simpl; lia].
    - exists [], (c :: t). split; [reflexivity|lia]. }
  destruct E as (mi & s0 & -> & L0).
  destruct (number_int_consumes s0) as [N1 L1]. unfold consumes_at.
  destruct (number_int s0) as [i s1| |]; try (split; [discriminate|discriminate]).
  2:{ contradiction. }
  specialize (L1 _ _ eq_refl).
  destruct (number_frac_advances s1) as [N2 L2].
  destruct (number_frac s1) as [f s2| |]; try (split; [discriminate|discriminate]).
  2:{ contradiction. }
  specialize (L2 _ _ eq_refl).
  destruct (number_exp_advances s2) as [N3 L3].
  destruct (number_exp s2) as [e s3| |]; try (split; [discriminate|discriminate]).
  2:{ contradiction. }
  specialize (L3 _ _ eq_refl).
  split; [discriminate|]. intros a r H; inversion H; subst; lia.
Qed.

#[local] Arguments startsWith : simpl never.
#[local] Arguments skipn : simpl never.

Ltac syntax_error := split; [discriminate | discriminate].
Ltac answered :=
  split; [discriminate
         | let H := fresh in
           intros ? ? H; inversion H; subst; simpl in *; lia].

Lemma fuel_enough (fuel : nat) :
  (forall s, (2 * List.length s + 1 <= fuel)%nat ->
             consumes_at (value fuel) s) /\
  (forall acc s, (2 * List.length s + 2 <= fuel)%nat ->
                 consumes_at (elements fuel acc) s) /\
  (forall acc s, (2 * List.length s + 2 <= fuel)%nat ->
                 consumes_at (members fuel acc) s).
Proof.
  induction fuel as [|fuel (IHv & IHe & IHm)].
  { repeat split; intros; lia. }
  unfold consumes_at in *. split; [|split].
  - (* value *)
    intros s Hs. simpl.
    pose proof (skip_ws_length s) as L.
    destruct (skip_ws s) as [|c s']; [syntax_error|]. simpl in L.
    destruct (c =? 123).
    { pose proof (skip_ws_length s') as L'.
      destruct (skip_ws s') as [|d s'']; [syntax_error|]. simpl in L'.
      destruct (d =? 125); [answered|].
      destruct (IHm [] s' ltac:(lia)) as [N B].
      split; [exact N|]. intros a r H. apply B in H. lia. }
    destruct (c =? 91).
    { pose proof (skip_ws_length s') as L'.
      destruct (skip_ws s') as [|d s'']; [syntax_error|]. simpl in L'.
      destruct (d =? 93); [answered|].
      destruct (IHe [] s' ltac:(lia)) as [N B].
      split; [exact N|]. intros a r H. apply B in H. lia. }
    destruct (c =? 34).
    { destruct (string_chars_consumes [] s') as [N B].
      destruct (string_chars [] s') as [str r0| |];
        [|syntax_error|contradiction].
      specialize (B _ _ eq_refl). answered. }
    destruct (startsWith (c :: s') (js "true")).
    { split; [discriminate|]. intros a r H; inversion H; subst.
      pose proof (length_skipn 4 (c :: s')). simpl in *. lia. }
    destruct (startsWith (c :: s') (js "false")).
    { split; [discriminate|]. intros a r H; inversion H; subst.
      pose proof (length_skipn 5 (c :: s')). simpl in *. lia. }
    destruct (startsWith (c :: s') (js "null")).
    { split; [discriminate|]. intros a r H; inversion H; subst.
      pose proof (length_skipn 4 (c :: s')). simpl in *. lia. }
    destruct (number_consumes (c :: s')) as [N B].
    destruct (number (c :: s')) as [n r0| |]; [|syntax_error|contradiction].
    specialize (B _ _ eq_refl). answered.
  - (* elements *)
    intros acc s Hs. simpl.
    destruct (IHv s ltac:(lia)) as [N B].
    destruct (value fuel s) as [v r0| |]; [|syntax_error|contradiction].
    specialize (B _ _ eq_refl).
    pose proof (skip_ws_length r0) as L.
    destruct (skip_ws r0) as [|c r']; [syntax_error|]. simpl in L.
    destruct (c =? 44).
    { destruct (IHe (v :: acc) r' ltac:(lia)) as [N' B'].
      split; [exact N'|]. intros a r H. apply B' in H. lia. }
    destruct (c =? 93); [answered|syntax_error].
  - (* members *)
    intros acc s Hs. simpl.
    pose proof (skip_ws_length s) as L.
    destruct (skip_ws s) as [|q s1]; [syntax_error|]. simpl in L.
    destruct (q =? 34); [|syntax_error].
    destruct (string_chars_consumes [] s1) as [N1 B1].
    destruct (string_chars [] s1) as [key s2| |]; [|syntax_error|contradiction].
    specialize (B1 _ _ eq_refl).
    pose proof (skip_ws_length s2) as L2.
    destruct (skip_ws s2) as [|colon s3]; [syntax_error|]. simpl in L2.
    destruct (colon =? 58); [|syntax_error].
    destruct (IHv s3 ltac:(lia)) as [N B].
    destruct (value fuel s3) as [v r0| |]; [|syntax_error|contradiction].
    specialize (B _ _ eq_refl).
    pose proof (skip_ws_length r0) as L3.
    destruct (skip_ws r0) as [|c r']; [syntax_error|]. simpl in L3.
    destruct (c =? 44).
    { destruct (IHm ((key, v) :: acc) r' ltac:(lia)) as [N' B'].
      split; [exact N'|]. intros a r H. apply B' in H. lia. }
    destruct (c =? 125); [answered|syntax_error].
Qed.

(** [JSON.parse] answers or throws a SyntaxError: [None] in [JSON.parse] is
    never a lack of fuel. *)
Lemma parse_fuel (text : jsstring) :
  parse_with (2 * List.length text + 1) text <> OutOfFuel.
Proof.
  unfold parse_with.
  destruct (fuel_enough (2 * List.length text + 1)) as (Hv & _ & _).
  destruct (Hv text ltac:(lia)) as [N _].
  destruct (value (2 * List.length text + 1) text) as [v r| |];
    [|discriminate|contradiction].
  destruct (skip_ws r); discriminate.
Qed.

End JSONFacts.

(* ================================================================== *)
(** ** Splitting a text that arrives in two parts *)


Section SplitFacts.

Variable m : matcher.

Lemma split_go_nonempty (s : jsstring) :
  forall k cur, split_go m k cur s <> [].
Proof.
  induction s as [|c s IH]; intros k cur; simpl; [discriminate|].
  destruct k; [|apply IH].
  destruct (m (c :: s)) as [[|n]|]; try apply IH; discriminate.
Qed.

Lemma split_go_skip (s : jsstring) :
  forall k cur, (k <= List.length s)%nat ->
                split_go m k cur s = split_go m 0 cur (skipn k s).
Proof.
  induction s as [|c s IH]; intros k cur Hk.
  - destruct k; [reflexivity|simpl in Hk; lia].
  - destruct k; [reflexivity|]. simpl in Hk |- *. apply IH. lia.
Qed.

Lemma split_go_cur (s : jsstring) :
  forall k cur, split_go m k cur s = prepend (rev cur) (split_go m k [] s).
Proof.
  induction s as [|c s IH]; intros k cur; simpl.
  - now rewrite app_nil_r.
  - destruct k; [|apply IH].
    destruct (m (c :: s)) as [[|n]|].
    + rewrite (IH _ (c :: cur)), (IH _ [c]). simpl.
      destruct (split_go m 0 [] s); simpl; [reflexivity|].
      now rewrite <- app_assoc.
    + simpl. now rewrite app_nil_r.
    + rewrite (IH _ (c :: cur)), (IH _ [c]). simpl.
      destruct (split_go m 0 [] s); simpl; [reflexivity|].
      now rewrite <- app_assoc.
Qed.

(** A text with no match is one piece. *)
Lemma split_go_no_match (s : jsstring) :
  (forall j, m (skipn j s) = None) ->
  forall cur, split_go m 0 cur s = [rev cur ++ s].
Proof.
  induction s as [|c s IH]; intros H cur; simpl.
  - now rewrite app_nil_r.
  - rewrite (H 0%nat : m (c :: s) = None).
    rewrite IH; [simpl; now rewrite <- app_assoc|].
    intros j. exact (H (S j)).
Qed.

(** One piece is the whole text. *)
Lemma split_go_single (s : jsstring) :
  forall cur seg, split_go m 0 cur s = [seg] -> seg = rev cur ++ s.
Proof.
  induction s as [|c s IH]; intros cur seg H; simpl in H.
  - inversion H. now rewrite app_nil_r.
  - destruct (m (c :: s)) as [[|n]|].
    + apply IH in H. subst. simpl. now rewrite <- app_assoc.
    + inversion H as [[H1 H2]]. now apply split_go_nonempty in H2.
    + apply IH in H. subst. simpl. now rewrite <- app_assoc.
Qed.

(** What a regular expression of bounded look-ahead that matches no empty
    string and no proper extension of a match satisfies. *)
Hypothesis match_fits :
  forall s n, m s = Some n -> (0 < n <= List.length s)%nat.
Hypothesis match_extends :
  forall x y n, m x = Some n -> m (x ++ y) = Some n.
Hypothesis match_restricts :
  forall x y n, m (x ++ y) = Some n -> (n <= List.length x)%nat ->
                m x = Some n.
Hypothesis match_straddles :
  forall x y n, m (x ++ y) = Some n -> (List.length x < n)%nat ->
                forall j, m (skipn j x) = None.

Lemma split_cons_match (c : Z) (s : jsstring) (n : nat) :
  m (c :: s) = Some n ->
  split m (c :: s) = [] :: split m (skipn n (c :: s)).
Proof.
  intros H. pose proof (match_fits _ _ H) as F. unfold split. simpl.
  rewrite H. destruct n as [|k]; [lia|]. simpl in F |- *.
  rewrite split_go_skip by lia. reflexivity.
Qed.

Lemma split_cons_no_match (c : Z) (s : jsstring) :
  m (c :: s) = None ->
  split m (c :: s) = prepend [c] (split m s).
Proof.
  intros H. unfold split. simpl. rewrite H. apply (split_go_cur s 0 [c]).
Qed.

(** Splitting [x ++ y] is splitting [x], keeping its last piece back, and
    splitting that piece followed by [y]: what [buffer = events.pop()] and
    [buffer += ...] do from one read to the next. *)
Lemma split_app (x y : jsstring) :
  split m (x ++ y) =
  removelast (split m x) ++ split m (last (split m x) [] ++ y).
Proof.
  remember (List.length x) as n eqn:En. revert x En.
  induction n as [n IH] using lt_wf_ind. intros x ->.
  destruct x as [|c x]; [reflexivity|].
  destruct (m (c :: x)) as [k|] eqn:Hx.
  - pose proof (match_fits _ _ Hx) as F.
    rewrite (split_cons_match _ _ _ Hx).
    change ((c :: x) ++ y) with (c :: (x ++ y)).
    rewrite (split_cons_match c (x ++ y) k)
      by exact (match_extends (c :: x) y k Hx).
    change (c :: (x ++ y)) with ((c :: x) ++ y).
    rewrite skipn_app.
    replace (k - List.length (c :: x))%nat with 0%nat by lia.
    change (skipn 0 y) with y.
    assert (L : (List.length (skipn k (c :: x)) < List.length (c :: x))%nat).
    { rewrite length_skipn. lia. }
    rewrite (IH _ L _ eq_refl).
    pose proof (split_go_nonempty (skipn k (c :: x)) 0 []) as NE.
    fold (split m (skipn k (c :: x))) in NE.
    destruct (split m (skipn k (c :: x))) as [|h t]; [contradiction|].
    reflexivity.
  - rewrite (split_cons_no_match _ _ Hx).
    change ((c :: x) ++ y) with (c :: (x ++ y)).
    destruct (m (c :: (x ++ y))) as [k|] eqn:Hxy.
    + assert (S : (List.length (c :: x) < k)%nat).
      { destruct (Nat.le_gt_cases k (List.length (c :: x))) as [Le|Gt];
          [|exact Gt].
        rewrite (match_restricts (c :: x) y k Hxy Le) in Hx. discriminate. }
      pose proof (match_straddles (c :: x) y k Hxy S) as NM.
      assert (NM' : forall j, m (skipn j x) = None)
        by (intros j; exact (NM (Datatypes.S j))).
      assert (Sx : split m x = [x])
        by (unfold split; now rewrite (split_go_no_match x NM')).
      rewrite Sx. reflexivity.
    + rewrite (split_cons_no_match _ _ Hxy).
      rewrite (IH (List.length x) ltac:(simpl; lia) x eq_refl).
      pose proof (split_go_nonempty x 0 []) as NE. fold (split m x) in NE.
      destruct (split m x) as [|seg [|seg' rest]] eqn:Sx; [contradiction| |].
      * apply split_go_single in Sx. simpl in Sx. subst seg. simpl.
        change (c :: (x ++ y)) with ((c :: x) ++ y) in Hxy.
        symmetry. apply split_cons_no_match. exact Hxy.
      * simpl. reflexivity.
Qed.

End SplitFacts.

(** ** The blank-line expression has these properties *)

Ltac case_eqb :=
  match goal with
  | H : context [if ?a =? ?b then _ else _] |- _ =>
      destruct (Z.eqb_spec a b); subst
  | |- context [if ?a =? ?b then _ else _] =>
      destruct (Z.eqb_spec a b); subst
  end.

Ltac case_list :=
  match goal with
  | H : context [match ?l with [] => _ | _ :: _ => _ end] |- _ =>
      is_var l; destruct l
  | |- context [match ?l with [] => _ | _ :: _ => _ end] =>
      is_var l; destruct l
  end.

Ltac crunch :=
  repeat (cbn in *; first [case_eqb | case_list]);
  cbn in *; try discriminate; try congruence; try lia;
  try solve [ repeat match goal with
                     | H : Some _ = Some _ |- _ => injection H as H; subst
                     end; cbn in *; lia ].

Lemma match_eol_fits (s : jsstring) (n : nat) :
  match_eol s = Some n -> (0 < n <= 2)%nat /\ (n <= List.length s)%nat.
Proof. unfold match_eol. intros H. crunch; inversion H; lia. Qed.

Lemma blank_fits (s : jsstring) (n : nat) :
  match_blank_line s = Some n -> (0 < n <= List.length s)%nat.
Proof.
  unfold match_blank_line. intros H.
  destruct (match_eol s) as [n1|] eqn:E1; [|discriminate].
  destruct (match_eol (skipn n1 s)) as [n2|] eqn:E2; [|discriminate].
  inversion H; subst.
  apply match_eol_fits in E1, E2. rewrite length_skipn in E2. lia.
Qed.

Lemma blank_bound (s : jsstring) (n : nat) :
  match_blank_line s = Some n -> (n <= 4)%nat.
Proof.
  unfold match_blank_line. intros H.
  destruct (match_eol s) as [n1|] eqn:E1; [|discriminate].
  destruct (match_eol (skipn n1 s)) as [n2|] eqn:E2; [|discriminate].
  inversion H; subst.
  apply match_eol_fits in E1, E2. lia.
Qed.

Lemma blank_extends (x y : jsstring) (n : nat) :
  match_blank_line x = Some n -> match_blank_line (x ++ y) = Some n.
Proof. unfold match_blank_line, match_eol. intros H. crunch. Qed.

Lemma blank_restricts (x y : jsstring) (n : nat) :
  match_blank_line (x ++ y) = Some n -> (n <= List.length x)%nat ->
  match_blank_line x = Some n.
Proof.
  unfold match_blank_line, match_eol. intros H L.
  destruct x as [|a [|b [|c [|d x]]]]; crunch.
Qed.

Lemma blank_straddles (x y : jsstring) (n : nat) :
  match_blank_line (x ++ y) = Some n -> (List.length x < n)%nat ->
  forall j, match_blank_line (skipn j x) = None.
Proof.
  intros H L j. pose proof (blank_bound _ _ H) as B.
  unfold match_blank_line, match_eol in *.
  destruct x as [|a [|b [|c [|d x]]]]; [| | | |simpl in L; lia];
    destruct j as [|[|[|[|j]]]]; crunch.
Qed.

Lemma split_blank_app (x y : jsstring) :
  split match_blank_line (x ++ y) =
  removelast (split match_blank_line x)
  ++ split match_blank_line (last (split match_blank_line x) [] ++ y).
Proof.
  apply split_app.
  - exact blank_fits.
  - exact blank_extends.
  - exact blank_restricts.
  - exact blank_straddles.
Qed.

(* ================================================================== *)
(** ** The text decoder on bytes that arrive in two parts *)

Module TextDecoderFacts.
Import TextDecoder.

Lemma utf8_run_app (a b : list Z) :
  forall st,
    utf8_run st (a ++ b) =
    let '(st1, o1) := utf8_run st a in
    let '(st2, o2) := utf8_run st1 b in
    (st2, o1 ++ o2).
Proof.
  induction a as [|x a IH]; intros st; simpl.
  - destruct (utf8_run st b); reflexivity.
  - destruct (utf8_handler st x) as [st1 o1]. rewrite IH.
    destruct (utf8_run st1 a) as [st2 o2].
    destruct (utf8_run st2 b) as [st3 o3].
    simpl. now rewrite app_assoc.
Qed.

Lemma serialize_app (seen : bool) (i1 i2 : list Z) :
  serialize seen (i1 ++ i2) =
  let '(s1, o1) := serialize seen i1 in
  let '(s2, o2) := serialize s1 i2 in
  (s2, o1 ++ o2).
Proof.
  destruct i1 as [|i i1]; simpl.
  - destruct (serialize seen i2); reflexivity.
  - destruct seen; destruct i2 as [|j i2]; simpl;
      try destruct (i =? 65279); reflexivity.
Qed.

(** Decoding [a ++ b] in one read is decoding [a] and then [b]. *)
Lemma decode_app (d : t) (a b : list Z) :
  decode d (a ++ b) =
  let '(d1, t1) := decode d a in
  let '(d2, t2) := decode d1 b in
  (d2, t1 ++ t2).
Proof.
  unfold decode. rewrite utf8_run_app.
  destruct (utf8_run (utf8 d) a) as [st1 o1].
  destruct (serialize (bom_seen d) o1) as [s1 u1] eqn:E1. cbn [utf8 bom_seen].
  destruct (utf8_run st1 b) as [st2 o2].
  rewrite serialize_app, E1.
  destruct (serialize s1 o2) as [s2 u2].
  now rewrite flat_map_app.
Qed.

End TextDecoderFacts.

(* ================================================================== *)
(** ** The read loop on a body read in more or fewer pieces *)

Lemma last_app_nonempty {A} (l l' : list A) (d : A) :
  l' <> [] -> last (l ++ l') d = last l' d.
Proof.
  intros NE. induction l as [|a l IH]; [reflexivity|].
  simpl. rewrite IH. destruct (l ++ l') eqn:E; [|reflexivity].
  apply app_eq_nil in E. tauto.
Qed.

Section LoopFacts.

Variable Number_toString : jsstring -> jsstring.
Variable W : Type.
Variable onChunk : jsstring -> W -> W.

#[local] Abbreviation events_loop := (for_events Number_toString W onChunk).
#[local] Abbreviation loop := (read_loop Number_toString W onChunk).

Lemma for_events_app (e1 e2 : list jsstring) (w : W) :
  events_loop (e1 ++ e2) w =
  match events_loop e1 w with
  | (Continue, w') => events_loop e2 w'
  | stop => stop
  end.
Proof.
  revert w. induction e1 as [|e e1 IH]; intros w; simpl.
  - reflexivity.
  - destruct (for_lines Number_toString W onChunk (split match_eol e) w)
      as [[| |x] w']; [apply IH|reflexivity|reflexivity].
Qed.

(** Two reads, or one read of both chunks: the same run. *)
Lemma read_loop_merge (r1 r2 : list Z) (rs : list (list Z))
    (failure : option exn) (d : TextDecoder.t) (buf : jsstring) (w : W) :
  loop (r1 :: r2 :: rs) failure d buf w =
  loop ((r1 ++ r2) :: rs) failure d buf w.
Proof.
  cbn [read_loop]. rewrite TextDecoderFacts.decode_app.
  destruct (TextDecoder.decode d r1) as [d1 t1].
  destruct (TextDecoder.decode d1 r2) as [d2 t2].
  unfold pop. rewrite app_assoc, (split_blank_app (buf ++ t1) t2).
  set (segs1 := split match_blank_line (buf ++ t1)).
  set (segs2 := split match_blank_line (last segs1 [] ++ t2)).
  assert (NE : segs2 <> []) by apply split_go_nonempty.
  rewrite (removelast_app _ NE), (last_app_nonempty _ _ _ NE).
  rewrite for_events_app.
  destruct (events_loop (removelast segs1) w) as [[| |x] w1]; reflexivity.
Qed.

Lemma read_loop_concat (rs : list (list Z)) :
  forall r failure d buf w,
    loop (r :: rs) failure d buf w =
    loop [r ++ List.concat rs] failure d buf w.
Proof.
  induction rs as [|r2 rs IH]; intros r failure d buf w.
  - cbn [List.concat]. now rewrite app_nil_r.
  - rewrite read_loop_merge, IH. cbn [List.concat]. now rewrite <- app_assoc.
Qed.

(** From the state the loop starts in, only the bytes count. *)
Lemma read_loop_chunking (reads1 reads2 : list (list Z))
    (failure : option exn) (w : W) :
  List.concat reads1 = List.concat reads2 ->
  loop reads1 failure TextDecoder.create [] w =
  loop reads2 failure TextDecoder.create [] w.
Proof.
  intros E.
  assert (Nil : forall rs, loop rs failure TextDecoder.create [] w =
                           loop [List.concat rs] failure TextDecoder.create [] w).
  { intros [|r rs]; [reflexivity|apply read_loop_concat]. }
  now rewrite (Nil reads1), (Nil reads2), E.
Qed.

End LoopFacts.

(* ================================================================== *)
(** ** Decoding the UTF-8 encoding of a scalar value *)

Module Utf8Facts.
Import TextDecoder.

Lemma land_mask (b : Z) (k : Z) :
  0 <= k -> Z.land b (2 ^ k - 1) = b mod 2 ^ k.
Proof.
  intros Hk. rewrite <- Z.land_ones by exact Hk.
  now rewrite Z.ones_equiv, Z.sub_1_r.
Qed.

Lemma lor_shiftl_6 (x y : Z) :
  0 <= y < 64 -> Z.lor (Z.shiftl x 6) y = x * 64 + y.
Proof.
  intros Hy.
  assert (D : Z.land (Z.shiftl x 6) y = 0).
  { apply Z.bits_inj'. intros n Hn.
    rewrite Z.land_spec, Z.bits_0.
    destruct (Z.lt_ge_cases n 6) as [Lt|Ge].
    - rewrite Z.shiftl_spec_low by exact Lt. reflexivity.
    - replace (Z.testbit y n) with false; [apply andb_false_r|].
      symmetry. destruct (Z.eq_dec y 0) as [->|NZ]; [apply Z.bits_0|].
      apply Z.bits_above_log2; [lia|].
      apply Z.log2_lt_pow2; [lia|].
      apply Z.lt_le_trans with (2 ^ 6); [simpl; lia|].
      apply Z.pow_le_mono_r; lia. }
  rewrite <- Z.lxor_lor by exact D.
  rewrite <- Z.add_nocarry_lxor by exact D.
  now rewrite Z.shiftl_mul_pow2 by lia.
Qed.

(** The bytes after the first, when they are in range. *)
Lemma handler_continuation (st : utf8_state) (b : Z) :
  bytes_needed st <> 0 ->
  lower_boundary st <= b <= upper_boundary st ->
  0x80 <= b <= 0xBF ->
  utf8_handler st b =
  let cp := code_point st * 64 + (b - 0x80) in
  if bytes_seen st + 1 =? bytes_needed st then (utf8_init, [cp])
  else ({| code_point := cp; bytes_seen := bytes_seen st + 1;
           bytes_needed := bytes_needed st;
           lower_boundary := 0x80; upper_boundary := 0xBF |}, []).
Proof.
  intros N R B. unfold utf8_handler.
  destruct (Z.eqb_spec (bytes_needed st) 0) as [E|_]; [contradiction|].
  replace (lower_boundary st <=? b) with true
    by (symmetry; apply Z.leb_le; lia).
  replace (b <=? upper_boundary st) with true
    by (symmetry; apply Z.leb_le; lia).
  cbn [andb negb].
  change 63 with (2 ^ 6 - 1). rewrite land_mask by lia.
  assert (M : b mod 2 ^ 6 = b - 128).
  { change (2 ^ 6) with 64. symmetry.
    apply (Z.mod_unique b 64 2 (b - 128)); lia. }
  rewrite M, lor_shiftl_6 by lia.
  cbv zeta. destruct (bytes_seen st + 1 =? bytes_needed st); reflexivity.
Qed.

Lemma lead_2 (b : Z) :
  0xC2 <= b <= 0xDF ->
  utf8_handler utf8_init b =
  ({| code_point := b - 0xC0; bytes_seen := 0; bytes_needed := 1;
      lower_boundary := 0x80; upper_boundary := 0xBF |}, []).
Proof.
  intros R. unfold utf8_handler, utf8_lead. cbn [bytes_needed utf8_init].
  cbn [Z.eqb bytes_seen lower_boundary upper_boundary].
  replace (b <=? 127) with false by (symmetry; apply Z.leb_gt; lia).
  rewrite andb_false_r.
  replace (194 <=? b) with true by (symmetry; apply Z.leb_le; lia).
  replace (b <=? 223) with true by (symmetry; apply Z.leb_le; lia).
  cbn [andb]. change 31 with (2 ^ 5 - 1). rewrite land_mask by lia.
  replace (b mod 2 ^ 5) with (b - 192); [reflexivity|].
  change (2 ^ 5) with 32. apply (Z.mod_unique b 32 6 (b - 192)); lia.
Qed.

Lemma lead_3 (b : Z) :
  0xE0 <= b <= 0xEF ->
  utf8_handler utf8_init b =
  ({| code_point := b - 0xE0; bytes_seen := 0; bytes_needed := 2;
      lower_boundary := if b =? 0xE0 then 0xA0 else 0x80;
      upper_boundary := if b =? 0xED then 0x9F else 0xBF |}, []).
Proof.
  intros R. unfold utf8_handler, utf8_lead. cbn [bytes_needed utf8_init].
  cbn [Z.eqb bytes_seen lower_boundary upper_boundary].
  replace (b <=? 127) with false by (symmetry; apply Z.leb_gt; lia).
  rewrite andb_false_r.
  replace (b <=? 223) with false by (symmetry; apply Z.leb_gt; lia).
  rewrite andb_false_r.
  replace (224 <=? b) with true by (symmetry; apply Z.leb_le; lia).
  replace (b <=? 239) with true by (symmetry; apply Z.leb_le; lia).
  cbn [andb]. change 15 with (2 ^ 4 - 1). rewrite land_mask by lia.
  replace (b mod 2 ^ 4) with (b - 224); [reflexivity|].
  change (2 ^ 4) with 16. apply (Z.mod_unique b 16 14 (b - 224)); lia.
Qed.

Lemma lead_4 (b : Z) :
  0xF0 <= b <= 0xF4 ->
  utf8_handler utf8_init b =
  ({| code_point := b - 0xF0; bytes_seen := 0; bytes_needed := 3;
      lower_boundary := if b =? 0xF0 then 0x90 else 0x80;
      upper_boundary := if b =? 0xF4 then 0x8F else 0xBF |}, []).
Proof.
  intros R. unfold utf8_handler, utf8_lead. cbn [bytes_needed utf8_init].
  cbn [Z.eqb bytes_seen lower_boundary upper_boundary].
  replace (b <=? 127) with false by (symmetry; apply Z.leb_gt; lia).
  rewrite andb_false_r.
  replace (b <=? 223) with false by (symmetry; apply Z.leb_gt; lia).
  rewrite andb_false_r.
  replace (b <=? 239) with false by (symmetry; apply Z.leb_gt; lia).
  rewrite andb_false_r.
  replace (240 <=? b) with true by (symmetry; apply Z.leb_le; lia).
  replace (b <=? 244) with true by (symmetry; apply Z.leb_le; lia).
  cbn [andb]. change 7 with (2 ^ 3 - 1). rewrite land_mask by lia.
  replace (b mod 2 ^ 3) with (b - 240); [reflexivity|].
  change (2 ^ 3) with 8. apply (Z.mod_unique b 8 30 (b - 240)); lia.
Qed.

Ltac fields :=
  cbn [code_point bytes_seen bytes_needed lower_boundary upper_boundary].

Ltac continuation :=
  rewrite handler_continuation
    by (fields;
        repeat match goal with
               | |- context [if ?a =? ?b then _ else _] =>
                   destruct (Z.eqb_spec a b)
               end; lia);
  fields; cbv zeta.

Lemma run_2 (x y : Z) :
  0xC2 <= x <= 0xDF -> 0x80 <= y <= 0xBF ->
  exists st,
    utf8_run utf8_init [x] = (st, []) /\
    utf8_run st [y] = (utf8_init, [(x - 0xC0) * 64 + (y - 0x80)]).
Proof.
  intros X Y. eexists. cbn [utf8_run]. rewrite (lead_2 x X).
  split; [reflexivity|]. now continuation.
Qed.

Lemma run_3 (x y z : Z) :
  0xE0 <= x <= 0xEF -> 0x80 <= y <= 0xBF -> 0x80 <= z <= 0xBF ->
  (x = 0xE0 -> 0xA0 <= y) -> (x = 0xED -> y <= 0x9F) ->
  let v := ((x - 0xE0) * 64 + (y - 0x80)) * 64 + (z - 0x80) in
  exists st1 st2,
    utf8_run utf8_init [x] = (st1, []) /\
    utf8_run st1 [y] = (st2, []) /\
    utf8_run st2 [z] = (utf8_init, [v]) /\
    bytes_needed st1 <> 0 /\ bytes_needed st2 <> 0.
Proof.
  intros X Y Z0 Lo Hi v. do 2 eexists. cbn [utf8_run]. rewrite (lead_3 x X).
  split; [reflexivity|]. continuation. cbn [Z.add Z.eqb Pos.add Pos.eqb].
  split; [reflexivity|]. continuation.
  split; [reflexivity|]. split; discriminate.
Qed.

Lemma run_4 (x y z u : Z) :
  0xF0 <= x <= 0xF4 -> 0x80 <= y <= 0xBF -> 0x80 <= z <= 0xBF ->
  0x80 <= u <= 0xBF ->
  (x = 0xF0 -> 0x90 <= y) -> (x = 0xF4 -> y <= 0x8F) ->
  let v := (((x - 0xF0) * 64 + (y - 0x80)) * 64 + (z - 0x80)) * 64
           + (u - 0x80) in
  exists st1 st2 st3,
    utf8_run utf8_init [x] = (st1, []) /\
    utf8_run st1 [y] = (st2, []) /\
    utf8_run st2 [z] = (st3, []) /\
    utf8_run st3 [u] = (utf8_init, [v]) /\
    bytes_needed st1 <> 0 /\ bytes_needed st2 <> 0 /\ bytes_needed st3 <> 0.
Proof.
  intros X Y Z0 U Lo Hi v. do 3 eexists. cbn [utf8_run].
  rewrite (lead_4 x X).
  split; [reflexivity|]. continuation. cbn [Z.add Z.eqb Pos.add Pos.eqb].
  split; [reflexivity|]. continuation. cbn [Z.add Z.eqb Pos.add Pos.eqb].
  split; [reflexivity|]. continuation.
  split; [reflexivity|]. repeat split; discriminate.
Qed.

Lemma run_cons_silent (st st' : utf8_state) (a : Z) (l : list Z) :
  utf8_run st [a] = (st', []) -> utf8_run st (a :: l) = utf8_run st' l.
Proof.
  cbn [utf8_run]. destruct (utf8_handler st a) as [st1 o1].
  rewrite app_nil_r. intros H. inversion H; subst.
  destruct (utf8_run st' l). reflexivity.
Qed.

Lemma split_of_2 {A} (b1 b2 : list A) (x y : A) :
  b1 ++ b2 = [x; y] -> b1 <> [] -> b2 <> [] -> b1 = [x] /\ b2 = [y].
Proof.
  intros H N1 N2.
  destruct b1 as [|a [|b [|c b1]]]; try contradiction;
    simpl in H; inversion H; subst; try contradiction; auto;
    destruct b1; discriminate.
Qed.

Lemma split_of_3 {A} (b1 b2 : list A) (x y z : A) :
  b1 ++ b2 = [x; y; z] -> b1 <> [] -> b2 <> [] ->
  (b1 = [x] /\ b2 = [y; z]) \/ (b1 = [x; y] /\ b2 = [z]).
Proof.
  intros H N1 N2.
  destruct b1 as [|a [|b [|c [|d b1]]]]; try contradiction;
    simpl in H; inversion H; subst; try contradiction; auto;
    destruct b1; discriminate.
Qed.

Lemma split_of_4 {A} (b1 b2 : list A) (x y z u : A) :
  b1 ++ b2 = [x; y; z; u] -> b1 <> [] -> b2 <> [] ->
  (b1 = [x] /\ b2 = [y; z; u]) \/ (b1 = [x; y] /\ b2 = [z; u])
  \/ (b1 = [x; y; z] /\ b2 = [u]).
Proof.
  intros H N1 N2.
  destruct b1 as [|a [|b [|c [|d [|e b1]]]]]; try contradiction;
    simpl in H; inversion H; subst; try contradiction; auto;
    destruct b1; discriminate.
Qed.

(** The bytes of a character of two bytes or more, cut anywhere: nothing
    comes out of the first part, the character comes out of the second. *)
Lemma run_split (c : Z) (b1 b2 : list Z) :
  is_scalar_value c -> 0x80 <= c ->
  b1 ++ b2 = utf8_encode c -> b1 <> [] -> b2 <> [] ->
  exists st1,
    utf8_run utf8_init b1 = (st1, []) /\
    utf8_run st1 b2 = (utf8_init, [c]).
Proof.
  intros Sc Lo H N1 N2. unfold utf8_encode, is_scalar_value in *.
  destruct (Z.ltb_spec c 0x80) as [|_]; [lia|].
  destruct (Z.ltb_spec c 0x800) as [C2|C2].
  { (* two bytes *)
    destruct (split_of_2 _ _ _ _ H N1 N2) as [-> ->].
    destruct (run_2 (0xC0 + c / 64) (0x80 + c mod 64)) as (st & R1 & R2);
      [Z.div_mod_to_equations; lia | Z.div_mod_to_equations; lia |].
    exists st. split; [exact R1|]. rewrite R2. do 2 f_equal.
    Z.div_mod_to_equations; lia. }
  destruct (Z.ltb_spec c 0x10000) as [C3|C3].
  { (* three bytes *)
    destruct (run_3 (0xE0 + c / 4096) (0x80 + (c / 64) mod 64)
                (0x80 + c mod 64))
      as (st1 & st2 & R1 & R2 & R3 & _);
      try (Z.div_mod_to_equations; lia).
    assert (V : ((0xE0 + c / 4096 - 0xE0) * 64
                 + (0x80 + (c / 64) mod 64 - 0x80)) * 64
                + (0x80 + c mod 64 - 0x80) = c)
      by (Z.div_mod_to_equations; lia).
    rewrite V in R3.
    destruct (split_of_3 _ _ _ _ _ H N1 N2) as [[-> ->]|[-> ->]].
    - exists st1. split; [exact R1|]. now rewrite (run_cons_silent _ _ _ _ R2).
    - exists st2. split; [|exact R3]. now rewrite (run_cons_silent _ _ _ _ R1).
  }
  (* four bytes *)
  destruct (run_4 (0xF0 + c / 262144) (0x80 + (c / 4096) mod 64)
              (0x80 + (c / 64) mod 64) (0x80 + c mod 64))
    as (st1 & st2 & st3 & R1 & R2 & R3 & R4 & _);
    try (Z.div_mod_to_equations; lia).
  assert (V : (((0xF0 + c / 262144 - 0xF0) * 64
                + (0x80 + (c / 4096) mod 64 - 0x80)) * 64
               + (0x80 + (c / 64) mod 64 - 0x80)) * 64
              + (0x80 + c mod 64 - 0x80) = c)
    by (Z.div_mod_to_equations; lia).
  rewrite V in R4.
  destruct (split_of_4 _ _ _ _ _ _ H N1 N2) as [[-> ->]|[[-> ->]|[-> ->]]].
  - exists st1. split; [exact R1|].
    now rewrite (run_cons_silent _ _ _ _ R2), (run_cons_silent _ _ _ _ R3).
  - exists st2. split.
    + now rewrite (run_cons_silent _ _ _ _ R1).
    + now rewrite (run_cons_silent _ _ _ _ R3).
  - exists st3. split; [|exact R4].
    now rewrite (run_cons_silent _ _ _ _ R1), (run_cons_silent _ _ _ _ R2).
Qed.





End Utf8Facts.

(* ================================================================== *)
(** ** A run is its fragments, whatever the callback *)


Section Trace.

Variable Number_toString : jsstring -> jsstring.

#[local] Abbreviation T := (list jsstring).
#[local] Abbreviation handle_line_ := (handle_line Number_toString).
#[local] Abbreviation for_lines_ := (for_lines Number_toString).
#[local] Abbreviation for_events_ := (for_events Number_toString).
#[local] Abbreviation read_loop_ := (read_loop Number_toString).


Lemma play_app {W} (onChunk : jsstring -> W -> W) (a b : list jsstring)
    (w : W) :
  play onChunk (a ++ b) w = play onChunk b (play onChunk a w).
Proof. apply fold_left_app. Qed.

Lemma play_record (frags tr : list jsstring) :
  play record_chunk frags tr = tr ++ frags.
Proof.
  revert tr. induction frags as [|f frags IH]; intros tr.
  - cbn. now rewrite app_nil_r.
  - change (play record_chunk (f :: frags) tr)
      with (play record_chunk frags (record_chunk f tr)).
    rewrite IH. unfold record_chunk. now rewrite <- app_assoc.
Qed.

Lemma handle_line_trace W (onChunk : jsstring -> W -> W) (line : jsstring)
    (w : W) :
  handle_line_ W onChunk line w =
  let '(c, d) := handle_line_ T record_chunk line [] in
  (c, play onChunk d w).
Proof.
  unfold handle_line.
  destruct (negb (startsWith line (js "data:"))); [reflexivity|].
  destruct (jsstring_eqb _ DONE); [reflexivity|].
  destruct (JSON.parse _) as [msg|]; [|reflexivity].
  destruct (get_text msg) as [e|text]; [reflexivity|].
  destruct (strict_eq_string text DONE); [reflexivity|].
  destruct (normalize Number_toString text); reflexivity.
Qed.

Lemma for_lines_trace (lines : list jsstring) :
  forall W (onChunk : jsstring -> W -> W) (w : W),
    for_lines_ W onChunk lines w =
    let '(c, d) := for_lines_ T record_chunk lines [] in
    (c, play onChunk d w).
Proof.
  induction lines as [|line lines IH]; intros W onChunk w; [reflexivity|].
  cbn [for_lines].
  rewrite (handle_line_trace W onChunk line w).
  destruct (handle_line_ T record_chunk line []) as [[| |e] d1];
    [|reflexivity|reflexivity].
  rewrite (IH W onChunk), (IH T record_chunk d1).
  destruct (for_lines_ T record_chunk lines []) as [c d2].
  now rewrite play_record, play_app.
Qed.

Lemma for_events_trace (events : list jsstring) :
  forall W (onChunk : jsstring -> W -> W) (w : W),
    for_events_ W onChunk events w =
    let '(c, d) := for_events_ T record_chunk events [] in
    (c, play onChunk d w).
Proof.
  induction events as [|ev events IH]; intros W onChunk w; [reflexivity|].
  cbn [for_events].
  rewrite (for_lines_trace _ W onChunk w).
  destruct (for_lines_ T record_chunk (split match_eol ev) [])
    as [[| |e] d1]; [|reflexivity|reflexivity].
  rewrite (IH W onChunk), (IH T record_chunk d1).
  destruct (for_events_ T record_chunk events []) as [c d2].
  now rewrite play_record, play_app.
Qed.

Lemma read_loop_trace (reads : list (list Z)) (failure : option exn) :
  forall (d : TextDecoder.t) (buf : jsstring)
         W (onChunk : jsstring -> W -> W) (w : W),
    read_loop_ W onChunk reads failure d buf w =
    let '(c, frags) := read_loop_ T record_chunk reads failure d buf [] in
    (c, play onChunk frags w).
Proof.
  induction reads as [|value reads IH]; intros d buf W onChunk w.
  - cbn [read_loop]. destruct failure; reflexivity.
  - cbn [read_loop].
    destruct (TextDecoder.decode d value) as [d' text].
    destruct (pop _) as [events buf'].
    rewrite (for_events_trace _ W onChunk w).
    destruct (for_events_ T record_chunk events []) as [[| |e] d1];
      [|reflexivity|reflexivity].
    rewrite (IH d' buf' W onChunk), (IH d' buf' T record_chunk d1).
    destruct (read_loop_ T record_chunk reads failure d' buf' [])
      as [c d2].
    now rewrite play_record, play_app.
Qed.

(** [chatWithLLM] with any callback, on the network's answer [res]: the
    completion is that of [fragments res], and the callback has been called
    on those fragments in order. *)
Lemma chatWithLLM_trace W (onChunk : jsstring -> W -> W)
    (fetch : Request -> W -> FetchResult * W)
    (prompt : jsstring) (signal : option AbortSignal) (w : W) :
  chatWithLLM Number_toString W onChunk fetch prompt signal w =
  let '(res, w') :=
    fetch {| url := BASE_URL ++ js "/chat/stream";
             prompt_sent := prompt; signal_sent := signal |} w in
  let '(c, frags) := fragments Number_toString res in
  (c, play onChunk frags w').
Proof.
  unfold fragments, chatWithLLM.
  destruct (fetch _ w) as [[e|res] w']; [reflexivity|].
  destruct (negb (ok res)); [reflexivity|].
  destruct (body res) as [b|]; [|reflexivity].
  apply read_loop_trace.
Qed.

End Trace.

(* ================================================================== *)
(** ** The fold step and handleSend *)

Lemma jsstring_eqb_eq (a b : jsstring) : jsstring_eqb a b = true <-> a = b.
Proof.
  revert b. induction a as [|x a IH]; intros [|y b]; simpl;
    try (split; [discriminate|discriminate]); [tauto|].
  rewrite andb_true_iff, Z.eqb_eq, IH.
  split; [intros [-> ->]; reflexivity|intros H; inversion H; auto].
Qed.

Lemma jsstring_eqb_neq (a b : jsstring) : a <> b -> jsstring_eqb a b = false.
Proof.
  intros N. destruct (jsstring_eqb a b) eqn:E; [|reflexivity].
  apply jsstring_eqb_eq in E. contradiction.
Qed.

Lemma trimStart_blank (s : jsstring) :
  (forall c, In c s -> is_white_space c = true) -> trimStart s = [].
Proof.
  induction s as [|c s IH]; intros H; [reflexivity|].
  simpl. rewrite (H c (or_introl eq_refl)). apply IH.
  intros d Hd. apply H. now right.
Qed.

Lemma trim_blank (s : jsstring) :
  (forall c, In c s -> is_white_space c = true) -> trim s = [].
Proof. intros H. unfold trim. now rewrite (trimStart_blank s H). Qed.


Lemma fold_chunk_tail (before : list Message) (last : Message)
    (chunk : jsstring) :
  role last = assistant ->
  fold_chunk chunk (before ++ [last]) =
  before ++ [{| role := assistant; content := content last ++ chunk |}].
Proof.
  intros R. unfold fold_chunk. rewrite rev_app_distr. cbn [rev app].
  rewrite R. cbn [Role_eqb negb]. now rewrite removelast_last.
Qed.

Lemma fold_all_tail (frags : list jsstring) :
  forall (before : list Message) (last : Message),
    role last = assistant ->
    fold_all frags (before ++ [last]) =
    before ++ [{| role := assistant;
                  content := content last ++ List.concat frags |}].
Proof.
  induction frags as [|f frags IH]; intros before last R.
  - cbn. rewrite app_nil_r. destruct last as [r c]. simpl in R. now subst.
  - change (fold_all (f :: frags) (before ++ [last]))
      with (fold_all frags (fold_chunk f (before ++ [last]))).
    rewrite (fold_chunk_tail _ _ _ R), IH by reflexivity.
    cbn [content List.concat]. now rewrite app_assoc.
Qed.

Lemma play_fold (frags : list jsstring) :
  forall w,
    play (fun chunk => setMessages (fold_chunk chunk)) frags w =
    setMessages (fold_all frags) w.
Proof.
  induction frags as [|f frags IH]; intros w.
  - destruct w; reflexivity.
  - change (play (fun chunk => setMessages (fold_chunk chunk)) (f :: frags) w)
      with (play (fun chunk => setMessages (fold_chunk chunk)) frags
              (setMessages (fold_chunk f) w)).
    rewrite IH. reflexivity.
Qed.


(** All of [handleSend] on an input that is not blank. *)
Lemma handleSend_sends (Number_toString : jsstring -> jsstring)
    (net : Request -> FetchResult) (input : jsstring) (w : World) :
  trim input <> [] ->
  handleSend Number_toString net input w =
  let '(outcome, frags) := fragments Number_toString (net (request_for input)) in
  {| messages :=
       messages w ++ [{| role := user; content := input |};
                      {| role := assistant; content := List.concat frags |}];
     streaming := false;
     abortController := Some {| signal := {| aborted := false |} |};
     console := console w ++ logged outcome;
     requests := requests w ++ [request_for input] |}.
Proof.
  intros NB. unfold handleSend. destruct (trim input); [contradiction|].
  rewrite chatWithLLM_trace. unfold send_request. cbn [signal].
  fold (request_for input).
  destruct (fragments Number_toString (net (request_for input)))
    as [outcome frags].
  rewrite play_fold.
  unfold setMessages, setStreaming, setAbortController, log_error.
  cbn [messages streaming abortController console requests].
  rewrite (fold_all_tail frags
             (messages w ++ [{| role := user; content := input |}])
             {| role := assistant; content := [] |} eq_refl).
  cbn [content app]. rewrite <- app_assoc. cbn [app].
  destruct outcome; cbn [logged]; [now rewrite app_nil_r|reflexivity].
Qed.

(** ** The loop over lines, and joining *)

Section ForLines.

Variable Number_toString : jsstring -> jsstring.
Variable W : Type.
Variable onChunk : jsstring -> W -> W.

Lemma for_lines_app (l1 l2 : list jsstring) (w : W) :
  for_lines Number_toString W onChunk (l1 ++ l2) w =
  match for_lines Number_toString W onChunk l1 w with
  | (Continue, w') => for_lines Number_toString W onChunk l2 w'
  | stop => stop
  end.
Proof.
  revert w. induction l1 as [|l l1 IH]; intros w; simpl.
  - reflexivity.
  - destruct (handle_line Number_toString W onChunk l w)
      as [[| |x] w']; [apply IH|reflexivity|reflexivity].
Qed.

End ForLines.




(* ================================================================== *)
(** * The claims *)


(** C1.  The wire input of two text events and the sentinel gives the
    fragments Hel and lo and then returns, the reader cancelled; the sentinel
    as first frame gives no fragment.  In general, at a payload line whose
    trimmed payload is the sentinel, the read loop returns with the reader
    cancelled and the callback's state as it was before that line: nothing
    is emitted for the line, and the lines and events after it, the rest of
    the buffer and the reads that would follow play no part. *)
Theorem sentinel_terminates (Number_toString : jsstring -> jsstring) :
  fragments Number_toString (ok_response [wire_hello] None)
  = (Returned true, [js "Hel"; js "lo"])
  /\ fragments Number_toString (ok_response [wire_done] None)
     = (Returned true, [])
  /\ forall W (onChunk : jsstring -> W -> W)
            (value : list Z) (reads : list (list Z)) (failure : option exn)
            (decoder : TextDecoder.t) (buffer buffer' : jsstring)
            (before after : list jsstring) (event : jsstring)
            (lines_before lines_after : list jsstring) (line : jsstring)
            (w w1 w2 : W),
      pop (split match_blank_line
             (buffer ++ snd (TextDecoder.decode decoder value)))
      = (before ++ event :: after, buffer') ->
      for_events Number_toString W onChunk before w = (Continue, w1) ->
      split match_eol event = lines_before ++ line :: lines_after ->
      for_lines Number_toString W onChunk lines_before w1 = (Continue, w2) ->
      startsWith line (js "data:") = true ->
      trim (slice line (List.length (js "data:"))) = DONE ->
      handle_line Number_toString W onChunk line w2 = (Return_cancelled, w2)
      /\ read_loop Number_toString W onChunk (value :: reads) failure
           decoder buffer w
         = (Returned true, w2).
Proof.
  split; [reflexivity|]. split; [reflexivity|].
  intros W onChunk value reads failure decoder buffer buffer' before after
    event lines_before lines_after line w w1 w2 Hpop Hbefore Hlines Hlb Hdata
    Hraw.
  assert (Hline : handle_line Number_toString W onChunk line w2
                  = (Return_cancelled, w2)).
  { unfold handle_line. rewrite Hdata, Hraw. reflexivity. }
  split; [exact Hline|].
  cbn [read_loop].
  destruct (TextDecoder.decode decoder value) as [decoder' text].
  cbn [snd] in Hpop. rewrite Hpop.
  rewrite for_events_app, Hbefore. cbn [for_events].
  rewrite Hlines, for_lines_app, Hlb. cbn [for_lines]. rewrite Hline.
  reflexivity.
Qed.

(** The sentinel in the middle of a read: the event after it, the partial
    event left in the buffer and the next read are all dropped. *)
Lemma sentinel_terminates_witness :
  read_loop printed_lexeme (list jsstring) record_chunk
    [wire_hello ++ data_event (js "late") ++ js "data: part";
     data_event (js "later")]
    (Some NetworkError) TextDecoder.create [] []
  = (Returned true, [js "Hel"; js "lo"]).
Proof.
  destruct (sentinel_terminates printed_lexeme) as (_ & _ & H).
  refine (proj2 (H (list jsstring) record_chunk
                   (wire_hello ++ data_event (js "late") ++ js "data: part")
                   [data_event (js "later")] (Some NetworkError)
                   TextDecoder.create [] (js "data: part")
                   [js "data: " ++ text_object (quoted "Hel");
                    js "data: " ++ text_object (quoted "lo")]
                   [js "data: late"] (js "data: [DONE]")
                   [] [] (js "data: [DONE]")
                   [] [js "Hel"; js "lo"] [js "Hel"; js "lo"]
                   _ _ _ _ _ _));
    reflexivity.
Defined.

(** C2.  While the last message of the transcript is the assistant's, a fold
    replaces that message by one whose content is the old content followed
    by the fragment and leaves the messages before it, and so the length, as
    they were; after the fragments F1 ... Fn, folded in order, the last
    message's content is its prior content followed by F1 ++ ... ++ Fn.  So
    a send leaves the transcript it found, the user's message and one
    assistant message made of the fragments the decoder delivered. *)
Theorem fold_appends_to_tail (before : list Message) (last : Message)
    (frags : list jsstring) :
  role last = assistant ->
  (forall chunk,
      fold_chunk chunk (before ++ [last])
      = before ++ [{| role := assistant; content := content last ++ chunk |}]
      /\ List.length (fold_chunk chunk (before ++ [last]))
         = List.length (before ++ [last]))
  /\ fold_all frags (before ++ [last])
     = before ++ [{| role := assistant;
                     content := content last ++ List.concat frags |}]
  /\ List.length (fold_all frags (before ++ [last]))
     = List.length (before ++ [last])
  /\ forall (Number_toString : jsstring -> jsstring)
            (net : Request -> FetchResult) (input : jsstring) (w : World),
      trim input <> [] ->
      messages (handleSend Number_toString net input w)
      = messages w
        ++ [{| role := user; content := input |};
            {| role := assistant;
               content :=
                 List.concat
                   (snd (fragments Number_toString
                           (net (request_for input)))) |}].
Proof.
  intros R. split; [|split; [|split]].
  - intros chunk. rewrite (fold_chunk_tail _ _ _ R).
    split; [reflexivity|]. now rewrite !length_app.
  - exact (fold_all_tail frags before last R).
  - rewrite (fold_all_tail frags before last R). now rewrite !length_app.
  - intros Number_toString net input w NB.
    rewrite (handleSend_sends Number_toString net input w NB).
    destruct (fragments Number_toString (net (request_for input))).
    reflexivity.
Qed.

Lemma fold_appends_to_tail_witness :
  fold_all [js "Hel"; js "lo"]
    [{| role := user; content := js "hi" |};
     {| role := assistant; content := [] |}]
  = [{| role := user; content := js "hi" |};
     {| role := assistant; content := js "Hello" |}].
Proof.
  exact (proj1 (proj2 (fold_appends_to_tail
                         [{| role := user; content := js "hi" |}]
                         {| role := assistant; content := [] |}
                         [js "Hel"; js "lo"] eq_refl))).
Defined.

(** C3.  The array form of the sentinel does not end the stream: the check
    for it sits inside the branch taken only when the field is the bare
    sentinel string, so the decoder emits the fragment [DONE] for the line
    and goes on to the events after it, although the check itself would hold
    of that field; the bare sentinel as the field does end the stream. *)
Theorem array_sentinel_is_emitted (Number_toString : jsstring -> jsstring) :
  fragments Number_toString
    (ok_response
       [data_event (text_object (js "[" ++ quoted "[DONE]" ++ js "]"))
        ++ data_event (text_object (quoted "more"))] None)
  = (Returned false, [js "[DONE]"; js "more"])
  /\ is_done_array (JArray [JString DONE]) = true
  /\ fragments Number_toString
       (ok_response
          [data_event (text_object (quoted "[DONE]"))
           ++ data_event (text_object (quoted "more"))] None)
     = (Returned true, []).
Proof. repeat split; reflexivity. Qed.

(** C4.  A payload line that reaches [JSON.parse] (its payload is not the
    sentinel, which returns before the parse) and fails to parse has its raw
    payload handed to the callback, and the loop goes on with the next line:
    no exception, no return.  The frame of the payload not-json gives the
    fragment not-json, and the frame after it is decoded as usual. *)
Theorem parse_failure_passes_raw (Number_toString : jsstring -> jsstring)
    W (onChunk : jsstring -> W -> W) (line : jsstring) (w : W) :
  startsWith line (js "data:") = true ->
  trim (slice line (List.length (js "data:"))) <> DONE ->
  JSON.parse (trim (slice line (List.length (js "data:")))) = None ->
  handle_line Number_toString W onChunk line w
  = (Continue, onChunk (trim (slice line (List.length (js "data:")))) w)
  /\ fragments Number_toString
       (ok_response [data_event (js "not-json")] None)
     = (Returned false, [js "not-json"])
  /\ fragments Number_toString
       (ok_response [data_event (js "not-json")
                     ++ data_event (text_object (quoted "ok"))] None)
     = (Returned false, [js "not-json"; js "ok"]).
Proof.
  intros Hdata Hraw Hparse. split; [|split; reflexivity].
  unfold handle_line. rewrite Hdata. cbn [negb].
  rewrite (jsstring_eqb_neq _ _ Hraw), Hparse. reflexivity.
Qed.

Lemma parse_failure_passes_raw_witness :
  handle_line printed_lexeme (list jsstring) record_chunk
    (js "data: {oops") [js "so far"]
  = (Continue, [js "so far"; js "{oops"]).
Proof.
  refine (proj1 (parse_failure_passes_raw printed_lexeme (list jsstring)
                   record_chunk (js "data: {oops") [js "so far"] _ _ _)).
  - reflexivity.
  - discriminate.
  - reflexivity.
Defined.





(** C6, as the code has it.  The handle exposes handleSend and streaming and
    no cancel.  A send creates an abort controller, stores it and passes its
    signal, never aborted, with the request.  When the send ends, the
    streaming flag is inactive and the transcript holds the fragments
    delivered until then and no more; whatever [chatWithLLM] throws, the
    rejection of an aborted request and a network failure alike, is logged
    with [console.error], and a normal end logs nothing. *)
Theorem send_ends_inactive (Number_toString : jsstring -> jsstring)
    (net : Request -> FetchResult) (input : jsstring) (w : World) :
  trim input <> [] ->
  ChatBoxHandle = ["handleSend"; "streaming"]%string
  /\ signal_sent (request_for input) = Some {| aborted := false |}
  /\ let after := handleSend Number_toString net input w in
     let run := fragments Number_toString (net (request_for input)) in
     streaming after = false
     /\ abortController after = Some {| signal := {| aborted := false |} |}
     /\ requests after = requests w ++ [request_for input]
     /\ messages after
        = messages w
          ++ [{| role := user; content := input |};
              {| role := assistant; content := List.concat (snd run) |}]
     /\ (forall e, fst run = Threw e ->
                   console after
                   = console w ++ [console_error (js "Streaming error:") e])
     /\ (forall b, fst run = Returned b -> console after = console w).
Proof.
  intros NB. split; [reflexivity|]. split; [reflexivity|].
  cbv zeta. rewrite (handleSend_sends Number_toString net input w NB).
  destruct (fragments Number_toString (net (request_for input)))
    as [outcome frags].
  cbn [streaming abortController requests messages console fst snd].
  repeat split.
  - intros e ->. reflexivity.
  - intros b ->. cbn [logged]. now rewrite app_nil_r.
Qed.


Lemma send_ends_inactive_witness :
  handleSend printed_lexeme (one_event_then (Some AbortError)) (js "hello")
    empty_world
  = {| messages := [{| role := user; content := js "hello" |};
                    {| role := assistant; content := js "Hi" |}];
       streaming := false;
       abortController := Some {| signal := {| aborted := false |} |};
       console := [console_error (js "Streaming error:") AbortError];
       requests := [request_for (js "hello")] |}.
Proof.
  pose proof (send_ends_inactive printed_lexeme
                (one_event_then (Some AbortError)) (js "hello") empty_world
                ltac:(discriminate)) as H.
  destruct H as (_ & _ & H). cbv zeta in H.
  destruct H as (H1 & H2 & H3 & H4 & H5 & _).
  specialize (H5 AbortError eq_refl).
  destruct (handleSend printed_lexeme (one_event_then (Some AbortError))
              (js "hello") empty_world) as [m s a c r].
  cbn [streaming abortController requests messages console] in *.
  subst. reflexivity.
Defined.

(** The claim as the specification words it fails: cancel is not a member
    of the handle, and a read rejected with an AbortError is logged as the
    error it is, where the same stream ending normally logs nothing. *)
Lemma cancel_counterexample :
  ~ In "cancel"%string ChatBoxHandle
  /\ console (handleSend printed_lexeme (one_event_then (Some AbortError))
                (js "hello") empty_world)
     = [console_error (js "Streaming error:") AbortError]
  /\ console (handleSend printed_lexeme (one_event_then (Some NetworkError))
                (js "hello") empty_world)
     = [console_error (js "Streaming error:") NetworkError]
  /\ console (handleSend printed_lexeme (one_event_then None)
                (js "hello") empty_world)
     = [].
Proof.
  split; [|repeat split; reflexivity].
  intros [H|[H|[]]]; discriminate.
Qed.

(** C7.  A send of an input that is not blank ends with the streaming flag
    cleared, whatever the network does.  When the response is not ok, or is
    ok and has no body, [chatWithLLM] throws, with any callback, before any
    call of it: the state it returns is the one [fetch] left; [handleSend]
    logs the error, and the transcript holds the user's message and the
    empty assistant message. *)
Theorem transport_error_is_terminal (Number_toString : jsstring -> jsstring)
    (net : Request -> FetchResult) (input : jsstring) (w : World) :
  trim input <> [] ->
  streaming (handleSend Number_toString net input w) = false
  /\ forall res,
      net (request_for input) = Resolved res ->
      ok res = false \/ body res = None ->
      let e := if ok res then NoResponseBody
               else StreamRequestFailed (status res) in
      (forall W (onChunk : jsstring -> W -> W)
              (fetch : Request -> W -> FetchResult * W)
              (prompt : jsstring) (signal : option AbortSignal) (w0 w1 : W),
          fetch {| url := BASE_URL ++ js "/chat/stream";
                   prompt_sent := prompt; signal_sent := signal |} w0
          = (Resolved res, w1) ->
          chatWithLLM Number_toString W onChunk fetch prompt signal w0
          = (Threw e, w1))
      /\ fragments Number_toString (Resolved res) = (Threw e, [])
      /\ console (handleSend Number_toString net input w)
         = console w ++ [console_error (js "Streaming error:") e]
      /\ messages (handleSend Number_toString net input w)
         = messages w ++ [{| role := user; content := input |};
                          {| role := assistant; content := [] |}].
Proof.
  intros NB. rewrite (handleSend_sends Number_toString net input w NB).
  split.
  { destruct (fragments Number_toString (net (request_for input)));
      reflexivity. }
  intros res Hnet Hbad e.
  assert (Hthrow : forall W (onChunk : jsstring -> W -> W)
                          (fetch : Request -> W -> FetchResult * W)
                          prompt signal w0 w1,
             fetch {| url := BASE_URL ++ js "/chat/stream";
                      prompt_sent := prompt; signal_sent := signal |} w0
             = (Resolved res, w1) ->
             chatWithLLM Number_toString W onChunk fetch prompt signal w0
             = (Threw e, w1)).
  { intros W onChunk fetch prompt signal w0 w1 Hf.
    unfold chatWithLLM. rewrite Hf. subst e.
    destruct (ok res); cbn [negb]; [|reflexivity].
    destruct Hbad as [Hok|Hbody]; [discriminate|]. now rewrite Hbody. }
  assert (Hfrag : fragments Number_toString (Resolved res) = (Threw e, []))
    by (apply Hthrow; reflexivity).
  split; [exact Hthrow|]. split; [exact Hfrag|].
  rewrite Hnet, Hfrag. split; reflexivity.
Qed.


Lemma transport_error_is_terminal_witness :
  streaming (handleSend printed_lexeme server_error (js "hello") empty_world)
  = false
  /\ fragments printed_lexeme (server_error (request_for (js "hello")))
     = (Threw (StreamRequestFailed 500), [])
  /\ console (handleSend printed_lexeme server_error (js "hello") empty_world)
     = [console_error (js "Streaming error:") (StreamRequestFailed 500)].
Proof.
  destruct (transport_error_is_terminal printed_lexeme server_error
              (js "hello") empty_world ltac:(discriminate)) as [H1 H2].
  specialize (H2 _ eq_refl (or_introl eq_refl)). cbv zeta in H2.
  destruct H2 as (_ & H3 & H4 & _).
  split; [exact H1|]. split; [exact H3|exact H4].
Defined.

(** C8.  On an input that is empty or made of white space only, handleSend
    returns the world it was given: the transcript, the streaming flag, the
    stored controller, the console and the list of requests sent are all as
    before. *)
Theorem blank_input_is_ignored (Number_toString : jsstring -> jsstring)
    (net : Request -> FetchResult) (input : jsstring) (w : World) :
  (forall c, In c input -> is_white_space c = true) ->
  handleSend Number_toString net input w = w.
Proof.
  intros H. unfold handleSend. now rewrite (trim_blank input H).
Qed.

Lemma blank_input_is_ignored_witness :
  handleSend printed_lexeme server_error (js "   ") empty_world = empty_world.
Proof.
  apply blank_input_is_ignored.
  intros c [<-|[<-|[<-|[]]]]; reflexivity.
Defined.



(** The byte-order mark, EF BB BF, at the start of the stream is dropped
    when it is cut after its first byte as when it is read at once; a
    second one after it is a character like any other, cut or not. *)
Lemma byte_order_mark_cut_or_not :
  snd (decode_reads TextDecoder.create [[0xEF]; [0xBB; 0xBF]])
  = snd (decode_reads TextDecoder.create [[0xEF; 0xBB; 0xBF]])
  /\ snd (decode_reads TextDecoder.create
            [[0xEF; 0xBB; 0xBF]; [0xEF]; [0xBB; 0xBF]])
     = [0xFEFF]
  /\ snd (decode_reads TextDecoder.create
            [[0xEF; 0xBB; 0xBF]; [0xEF; 0xBB; 0xBF]])
     = [0xFEFF].
Proof. repeat split; reflexivity. Qed.

(** C10.  Two bodies that deliver the same bytes, in whatever chunks, empty
    ones included, and end the same way: [chatWithLLM] calls its callback on
    the same fragments in the same order and completes the same way, for
    every callback. *)
Theorem chunking_invariance (Number_toString : jsstring -> jsstring)
    (reads1 reads2 : list (list Z)) (ending : option exn) :
  List.concat reads1 = List.concat reads2 ->
  fragments Number_toString (ok_response reads1 ending)
  = fragments Number_toString (ok_response reads2 ending)
  /\ forall W (onChunk : jsstring -> W -> W)
            (fetch1 fetch2 : Request -> W -> FetchResult * W)
            (prompt : jsstring) (signal : option AbortSignal) (w w' : W),
      fetch1 {| url := BASE_URL ++ js "/chat/stream";
                prompt_sent := prompt; signal_sent := signal |} w
      = (ok_response reads1 ending, w') ->
      fetch2 {| url := BASE_URL ++ js "/chat/stream";
                prompt_sent := prompt; signal_sent := signal |} w
      = (ok_response reads2 ending, w') ->
      chatWithLLM Number_toString W onChunk fetch1 prompt signal w
      = chatWithLLM Number_toString W onChunk fetch2 prompt signal w.
Proof.
  intros E.
  assert (F : fragments Number_toString (ok_response reads1 ending)
              = fragments Number_toString (ok_response reads2 ending)).
  { unfold fragments, chatWithLLM, ok_response.
    cbn [ok negb body chunks failure].
    now apply read_loop_chunking. }
  split; [exact F|].
  intros W onChunk fetch1 fetch2 prompt signal w w' H1 H2.
  now rewrite !chatWithLLM_trace, H1, H2, F.
Qed.


Lemma chunking_invariance_witness :
  fragments printed_lexeme (ok_response accent_in_chunks None)
  = (Returned false, [[0xE9]]).
Proof.
  rewrite <- (proj1 (chunking_invariance printed_lexeme
                       accent_at_once accent_in_chunks None eq_refl)).
  reflexivity.
Defined.

(* ================================================================== *)
(** * Further properties of the code *)

(** ** The read loop *)

Lemma read_loop_failure (Number_toString : jsstring -> jsstring)
    W (onChunk : jsstring -> W -> W) (e : exn) (reads : list (list Z)) :
  forall (d : TextDecoder.t) (buf : jsstring) (w : W),
    read_loop Number_toString W onChunk reads (Some e) d buf w
    = let '(c, w') :=
        read_loop Number_toString W onChunk reads None d buf w in
      (match c with Returned false => Threw e | _ => c end, w').
Proof.
  induction reads as [|value reads IH]; intros d buf w; [reflexivity|].
  cbn [read_loop]. destruct (TextDecoder.decode d value) as [d' text].
  destruct (pop _) as [events buf'].
  destruct (for_events Number_toString W onChunk events w) as [[| |x] w'];
    [apply IH|reflexivity|reflexivity].
Qed.

(** X1.  A read that fails after some chunks: the fragments of those chunks
    have been delivered, in order, exactly as when the body ends there, and
    then the error is thrown; a sentinel or a TypeError met in those chunks
    wins over the failure, which is never read. *)
Theorem failure_after_fragments (Number_toString : jsstring -> jsstring)
    (reads : list (list Z)) (e : exn) :
  fragments Number_toString (ok_response reads (Some e))
  = let '(c, frags) := fragments Number_toString (ok_response reads None) in
    (match c with Returned false => Threw e | _ => c end, frags).
Proof.
  unfold fragments, chatWithLLM, ok_response.
  cbn [ok negb body chunks failure]. apply read_loop_failure.
Qed.

(** X2.  A body whose text holds no blank line gives no fragment, whatever
    it holds: an event is handled only once the blank line after it has
    arrived, and what is left in the buffer when the body ends is dropped. *)
Theorem unterminated_event_is_dropped (Number_toString : jsstring -> jsstring)
    (reads : list (list Z)) (ending : option exn) :
  (forall j,
      match_blank_line
        (skipn j (snd (TextDecoder.decode TextDecoder.create
                         (List.concat reads)))) = None) ->
  fragments Number_toString (ok_response reads ending)
  = (match ending with None => Returned false | Some e => Threw e end, []).
Proof.
  intros H. unfold fragments, chatWithLLM, ok_response.
  cbn [ok negb body chunks failure].
  rewrite (read_loop_chunking Number_toString (list jsstring) _ reads
             [List.concat reads] ending [])
    by (cbn [List.concat]; now rewrite app_nil_r).
  cbn [read_loop].
  destruct (TextDecoder.decode TextDecoder.create (List.concat reads))
    as [d text]. cbn [snd] in H. cbn [app].
  unfold pop, split. rewrite (split_go_no_match match_blank_line text H []).
  cbn. destruct ending; reflexivity.
Qed.

Lemma unterminated_event_is_dropped_witness :
  fragments printed_lexeme
    (ok_response [js "data: " ++ text_object (quoted "hi") ++ LF] None)
  = (Returned false, []).
Proof.
  apply (unterminated_event_is_dropped printed_lexeme
           [js "data: " ++ text_object (quoted "hi") ++ LF] None).
  intros j. do 21 (destruct j as [|j]; [reflexivity|]).
  destruct j; reflexivity.
Defined.

(** X3.  A line that does not start with data: changes nothing, wherever it
    stands in an event: the lines before and after it are handled as if it
    were not there. *)
Theorem other_lines_are_skipped (Number_toString : jsstring -> jsstring)
    W (onChunk : jsstring -> W -> W) (l1 l2 : list jsstring) (x : jsstring)
    (w : W) :
  startsWith x (js "data:") = false ->
  for_lines Number_toString W onChunk (l1 ++ x :: l2) w
  = for_lines Number_toString W onChunk (l1 ++ l2) w.
Proof.
  intros H. rewrite !for_lines_app.
  destruct (for_lines Number_toString W onChunk l1 w) as [[| |e] w'];
    [|reflexivity|reflexivity].
  cbn [for_lines]. unfold handle_line at 1. now rewrite H.
Qed.

Lemma other_lines_are_skipped_witness :
  for_lines printed_lexeme (list jsstring) record_chunk
    [js "event: message"; js "data: a"; js " data: b"; js "data: c"] []
  = for_lines printed_lexeme (list jsstring) record_chunk
      [js "event: message"; js "data: a"; js "data: c"] [].
Proof.
  exact (other_lines_are_skipped printed_lexeme (list jsstring) record_chunk
           [js "event: message"; js "data: a"] [js "data: c"]
           (js " data: b") [] eq_refl).
Defined.

(** ** The fold step off its usual path *)

Lemma fold_chunk_after_user (before : list Message) (last : Message)
    (chunk : jsstring) :
  role last = user ->
  fold_chunk chunk (before ++ [last])
  = (before ++ [last]) ++ [{| role := assistant; content := chunk |}].
Proof.
  intros R. unfold fold_chunk. rewrite rev_app_distr. cbn [rev app].
  now rewrite R.
Qed.

(** X4.  When the last message is the user's, the first fragment opens an
    assistant message and the fragments after it extend that message: the
    transcript gains one message, made of all the fragments.  On an empty
    transcript every fragment is dropped. *)
Theorem fold_opens_assistant_message (before : list Message)
    (last : Message) (f : jsstring) (fs : list jsstring) :
  role last = user ->
  fold_all (f :: fs) (before ++ [last])
  = before ++ [last; {| role := assistant;
                        content := List.concat (f :: fs) |}]
  /\ forall frags, fold_all frags [] = [].
Proof.
  intros R. split.
  - change (fold_all (f :: fs) (before ++ [last]))
      with (fold_all fs (fold_chunk f (before ++ [last]))).
    rewrite (fold_chunk_after_user _ _ _ R).
    rewrite (fold_all_tail fs (before ++ [last])
               {| role := assistant; content := f |} eq_refl).
    cbn [content List.concat]. now rewrite <- app_assoc.
  - intros frags. induction frags as [|g frags IH]; [reflexivity|exact IH].
Qed.

Lemma fold_opens_assistant_message_witness :
  fold_all [js "Hel"; js "lo"] [{| role := user; content := js "hi" |}]
  = [{| role := user; content := js "hi" |};
     {| role := assistant; content := js "Hello" |}].
Proof.
  exact (proj1 (fold_opens_assistant_message []
                  {| role := user; content := js "hi" |}
                  (js "Hel") [js "lo"] eq_refl)).
Defined.

(** ** Sends in a row *)



(** ** White space around a payload and around an input *)


Lemma trimStart_app_blank (ws x : jsstring) :
  blank ws -> trimStart (ws ++ x) = trimStart x.
Proof.
  induction ws as [|c ws IH]; intros B; [reflexivity|].
  simpl. rewrite (B c (or_introl eq_refl)). apply IH.
  intros d Hd. apply B. now right.
Qed.

Lemma trimStart_app (p q : jsstring) :
  trimStart (p ++ q)
  = match trimStart p with [] => trimStart q | _ :: _ => trimStart p ++ q end.
Proof.
  induction p as [|c p IH]; simpl.
  - destruct (trimStart q); reflexivity.
  - destruct (is_white_space c); [exact IH|reflexivity].
Qed.

Lemma blank_rev (ws : jsstring) : blank ws -> blank (rev ws).
Proof. intros B c Hc. apply B. now apply in_rev. Qed.

Lemma trimEnd_app_blank (x ws : jsstring) :
  blank ws -> trimEnd (x ++ ws) = trimEnd x.
Proof.
  intros B. unfold trimEnd. rewrite rev_app_distr.
  now rewrite (trimStart_app_blank _ _ (blank_rev ws B)).
Qed.

Lemma trim_padded (ws1 p ws2 : jsstring) :
  blank ws1 -> blank ws2 -> trim (ws1 ++ p ++ ws2) = trim p.
Proof.
  intros B1 B2. unfold trim.
  rewrite (trimStart_app_blank ws1 _ B1), trimStart_app.
  destruct (trimStart p) as [|c t] eqn:E.
  - now rewrite (trimStart_blank ws2 B2).
  - now rewrite (trimEnd_app_blank _ ws2 B2).
Qed.

Lemma trimStart_cut (s : jsstring) :
  exists l, s = l ++ trimStart s /\ blank l.
Proof.
  induction s as [|c s (l & E & B)]; simpl.
  - exists []. split; [reflexivity|intros c []].
  - destruct (is_white_space c) eqn:Wc.
    + exists (c :: l). split; [simpl; now rewrite <- E|].
      intros d [<-|Hd]; [exact Wc|now apply B].
    + exists []. split; [reflexivity|intros d []].
Qed.

Lemma trim_cut (s : jsstring) :
  exists l r, s = l ++ trim s ++ r /\ blank l /\ blank r.
Proof.
  destruct (trimStart_cut s) as (l & El & Bl).
  destruct (trimStart_cut (rev (trimStart s))) as (r & Er & Br).
  exists l, (rev r). split; [|split; [exact Bl|now apply blank_rev]].
  unfold trim, trimEnd. rewrite <- rev_app_distr, <- Er, rev_involutive.
  exact El.
Qed.

Lemma trim_idempotent (s : jsstring) : trim (trim s) = trim s.
Proof.
  destruct (trim_cut s) as (l & r & E & Bl & Br).
  rewrite E at 2. now rewrite trim_padded.
Qed.

Lemma startsWith_nil (s : jsstring) : startsWith s [] = true.
Proof. destruct s; reflexivity. Qed.

Lemma startsWith_app_self (p x : jsstring) : startsWith (p ++ x) p = true.
Proof.
  induction p as [|c p IH]; [apply startsWith_nil|].
  simpl. now rewrite Z.eqb_refl, IH.
Qed.

Lemma slice_app_self (p x : jsstring) : slice (p ++ x) (List.length p) = x.
Proof. unfold slice. induction p as [|c p IH]; [reflexivity|exact IH]. Qed.

(** X6.  White space between data: and the payload, and after the payload,
    does not count: the line is handled as the line without it.  White
    space is what [trim] strips, tabs and no-break spaces included. *)
Theorem payload_padding_is_ignored (Number_toString : jsstring -> jsstring)
    W (onChunk : jsstring -> W -> W) (ws1 payload ws2 : jsstring) (w : W) :
  blank ws1 -> blank ws2 ->
  handle_line Number_toString W onChunk
    (js "data:" ++ ws1 ++ payload ++ ws2) w
  = handle_line Number_toString W onChunk (js "data:" ++ payload) w.
Proof.
  intros B1 B2. unfold handle_line.
  rewrite !startsWith_app_self, !slice_app_self.
  now rewrite (trim_padded ws1 payload ws2 B1 B2).
Qed.

Lemma payload_padding_is_ignored_witness :
  handle_line printed_lexeme (list jsstring) record_chunk
    (js "data:" ++ [9; 0xA0; 32] ++ text_object (quoted "a") ++ [32; 32]) []
  = (Continue, [js "a"]).
Proof.
  rewrite (payload_padding_is_ignored printed_lexeme (list jsstring)
             record_chunk [9; 0xA0; 32] (text_object (quoted "a")) [32; 32]
             []).
  - reflexivity.
  - intros c [<-|[<-|[<-|[]]]]; reflexivity.
  - intros c [<-|[<-|[]]]; reflexivity.
Defined.

(** X7.  [App]'s handleSend with a mounted chat box and an input that is not
    blank: the chat box accepts what it is handed, so the transcript gains
    the user's message, which is the input without the white space around
    it, and the assistant's; the request carries that trimmed text; the
    input field is emptied and the flag set back.  With a blank input or
    no chat box, the input and the chat box stay as they are. *)
Theorem app_sends_trimmed_input (Number_toString : jsstring -> jsstring)
    (net : Request -> FetchResult) (a : App.state) (chat : World) :
  App.chatRef a = Some chat ->
  (trim (App.input a) <> [] ->
   App.handleSend Number_toString net a
   = {| App.input := [];
        App.isStreamingComplete := true;
        App.chatRef :=
          Some {| messages :=
                    messages chat
                    ++ exchange Number_toString net (trim (App.input a));
                  streaming := false;
                  abortController :=
                    Some {| signal := {| aborted := false |} |};
                  console :=
                    console chat
                    ++ logged
                         (fst (fragments Number_toString
                                 (net (request_for (trim (App.input a))))));
                  requests :=
                    requests chat ++ [request_for (trim (App.input a))] |} |}
   /\ exchange Number_toString net (trim (App.input a)) <> [])
  /\ (trim (App.input a) = [] ->
      App.handleSend Number_toString net a
      = {| App.input := App.input a;
           App.isStreamingComplete := true;
           App.chatRef := Some chat |}).
Proof.
  intros Hc. split.
  - intros NB. unfold App.handleSend. rewrite Hc.
    destruct (trim (App.input a)) as [|c t] eqn:E; [contradiction|].
    rewrite <- E in *.
    assert (NB' : trim (trim (App.input a)) <> [])
      by now rewrite trim_idempotent.
    rewrite (handleSend_sends Number_toString net _ chat NB').
    unfold exchange. rewrite trim_idempotent. rewrite E at 2 4. rewrite E.
    rewrite <- E.
    destruct (fragments Number_toString
                (net (request_for (trim (App.input a))))) as [o fr].
    split; [reflexivity|discriminate].
  - intros B. unfold App.handleSend. now rewrite B, Hc.
Qed.


Lemma app_sends_trimmed_input_witness :
  App.chatRef (App.handleSend printed_lexeme (one_event_then None)
                 typing_hello)
  = Some {| messages := [{| role := user; content := js "hello" |};
                         {| role := assistant; content := js "Hi" |}];
            streaming := false;
            abortController := Some {| signal := {| aborted := false |} |};
            console := [];
            requests := [request_for (js "hello")] |}.
Proof.
  destruct (app_sends_trimmed_input printed_lexeme (one_event_then None)
              typing_hello empty_world eq_refl) as [H _].
  destruct (H ltac:(discriminate)) as [-> _]. reflexivity.
Defined.

(** ** Splitting on a literal, and rendering the thoughts *)

Section SplitFirst.

Variable m : matcher.
Hypothesis match_fits :
  forall s n, m s = Some n -> (0 < n <= List.length s)%nat.

(** The first match of a text is where no match starts before it. *)
Lemma split_first (a r : jsstring) (n : nat) :
  (forall k, (k < List.length a)%nat -> m (skipn k (a ++ r)) = None) ->
  m r = Some n ->
  split m (a ++ r) = a :: split m (skipn n r).
Proof.
  intros Hno Hr. induction a as [|c a IH].
  - pose proof (match_fits _ _ Hr) as F.
    destruct r as [|c r]; [simpl in F; lia|].
    exact (split_cons_match m match_fits c r n Hr).
  - change ((c :: a) ++ r) with (c :: (a ++ r)).
    rewrite (split_cons_no_match m c (a ++ r) (Hno 0%nat ltac:(simpl; lia))).
    rewrite IH; [reflexivity|].
    intros k Hk. exact (Hno (S k) ltac:(simpl; lia)).
Qed.

End SplitFirst.

Lemma startsWith_length (s p : jsstring) :
  startsWith s p = true -> (List.length p <= List.length s)%nat.
Proof.
  revert s. induction p as [|c p IH]; intros s H; [simpl; lia|].
  destruct s as [|d s]; [discriminate|]. simpl in H.
  apply andb_true_iff in H. destruct H as [_ H]. apply IH in H. simpl; lia.
Qed.

Lemma literal_fits (sep : jsstring) :
  sep <> [] ->
  forall s n, match_literal sep s = Some n -> (0 < n <= List.length s)%nat.
Proof.
  intros NE s n H. unfold match_literal in H.
  destruct (startsWith s sep) eqn:E; [|discriminate].
  inversion H; subst. apply startsWith_length in E.
  destruct sep; [contradiction|simpl in *; lia].
Qed.

Lemma includes_nowhere (sep s : jsstring) :
  includes s sep = false -> forall k, startsWith (skipn k s) sep = false.
Proof.
  induction s as [|c s IH]; intros H k.
  - destruct k; exact H.
  - cbn [includes] in H. apply orb_false_iff in H. destruct H as [H0 H1].
    destruct k; [exact H0|]. exact (IH H1 k).
Qed.

Lemma nowhere_includes (sep s : jsstring) :
  (forall k, startsWith (skipn k s) sep = false) -> includes s sep = false.
Proof.
  induction s as [|c s IH]; intros H.
  - exact (H 0%nat).
  - cbn [includes]. rewrite (H 0%nat : startsWith (c :: s) sep = false).
    cbn [orb]. apply IH. intros k. exact (H (S k)).
Qed.

(** A text that starts with [p] after some [x]: [p] is at the head of [x],
    or [x] is the beginning of [p] and the rest of [p] follows. *)
Lemma startsWith_app_cases (x y : jsstring) :
  forall p,
    startsWith (x ++ y) p = true ->
    startsWith x p = true
    \/ exists p', p = x ++ p' /\ p' <> [] /\ startsWith y p' = true.
Proof.
  induction x as [|d x IH]; intros p H.
  - destruct p as [|e p]; [left; reflexivity|].
    right. exists (e :: p). repeat split; [discriminate|exact H].
  - destruct p as [|e p]; [left; reflexivity|].
    simpl in H. apply andb_true_iff in H. destruct H as [Hd H].
    apply Z.eqb_eq in Hd. subst e.
    destruct (IH p H) as [L|(p' & -> & NE & Hy)].
    + left. simpl. now rewrite Z.eqb_refl.
    + right. exists p'. repeat split; assumption.
Qed.

(** [sep] is nowhere in [a ++ b] when it is in neither and cannot begin at
    the end of [a] and go on in [b]. *)
Lemma includes_app (sep a b : jsstring) :
  includes a sep = false -> includes b sep = false ->
  (forall k p', (k < List.length a)%nat -> sep = skipn k a ++ p' ->
                p' <> [] -> startsWith b p' = false) ->
  includes (a ++ b) sep = false.
Proof.
  intros Ha Hb Hover. apply nowhere_includes. intros k.
  destruct (Nat.lt_ge_cases k (List.length a)) as [Lt|Ge].
  - rewrite skipn_app. replace (k - List.length a)%nat with 0%nat by lia.
    change (skipn 0 b) with b.
    destruct (startsWith (skipn k a ++ b) sep) eqn:E; [|reflexivity].
    destruct (startsWith_app_cases _ _ _ E) as [L|(p' & Ep & NE & Hy)].
    + now rewrite (includes_nowhere sep a Ha k) in L.
    + now rewrite (Hover k p' Lt Ep NE) in Hy.
  - rewrite skipn_app, (skipn_all2 a) by exact Ge.
    exact (includes_nowhere sep b Hb _).
Qed.


Lemma startsWith_head (c : Z) (b p' : jsstring) :
  startsWith (c :: b) p' = true -> p' <> [] -> exists q, p' = c :: q.
Proof.
  intros H NE. destruct p' as [|e q]; [contradiction|].
  simpl in H. apply andb_true_iff in H. destruct H as [H _].
  apply Z.eqb_eq in H. subst. now exists q.
Qed.

(** Such a separator cannot straddle the place where it begins again. *)
Lemma no_straddle (sep a r : jsstring) (k : nat) :
  starts_once sep -> includes a sep = false ->
  (k < List.length a)%nat ->
  startsWith (skipn k (a ++ sep ++ r)) sep = false.
Proof.
  intros Once Ha Lt.
  rewrite skipn_app. replace (k - List.length a)%nat with 0%nat by lia.
  change (skipn 0 (sep ++ r)) with (sep ++ r).
  destruct (startsWith (skipn k a ++ sep ++ r) sep) eqn:E; [|reflexivity].
  destruct (startsWith_app_cases _ _ _ E) as [L|(p' & Ep & NE & Hy)].
  - now rewrite (includes_nowhere sep a Ha k) in L.
  - destruct sep as [|c rest]; [contradiction|].
    assert (Hk : skipn k a <> []).
    { intros Z0. apply (f_equal (@List.length Z)) in Z0.
      rewrite length_skipn in Z0. simpl in Z0. lia. }
    destruct (skipn k a) as [|d a'] eqn:Ea; [contradiction|].
    simpl in Ep. inversion Ep as [[Hd Hrest]]. subst d.
    change ((c :: rest) ++ r) with (c :: (rest ++ r)) in Hy.
    destruct (startsWith_head _ _ _ Hy NE) as (q & ->).
    exfalso. apply Once. rewrite Hrest. apply in_or_app. right. now left.
Qed.

Lemma split_literal_first (sep a r : jsstring) :
  starts_once sep -> includes a sep = false ->
  split (match_literal sep) (a ++ sep ++ r)
  = a :: split (match_literal sep) r.
Proof.
  intros Once Ha.
  assert (NE : sep <> []) by (destruct sep; [contradiction|discriminate]).
  rewrite (split_first (match_literal sep) (literal_fits sep NE) a
             (sep ++ r) (List.length sep)).
  - now rewrite skipn_app, skipn_all, Nat.sub_diag.
  - intros k Hk. unfold match_literal.
    now rewrite (no_straddle sep a r k Once Ha Hk).
  - unfold match_literal. now rewrite startsWith_app_self.
Qed.

Lemma split_literal_none (sep s : jsstring) :
  includes s sep = false -> split (match_literal sep) s = [s].
Proof.
  intros H. unfold split.
  rewrite (split_go_no_match (match_literal sep) s); [reflexivity|].
  intros j. unfold match_literal. now rewrite (includes_nowhere sep s H j).
Qed.

Lemma think_starts_once : starts_once THINK.
Proof. cbn. intuition discriminate. Qed.

Lemma end_think_starts_once : starts_once END_THINK.
Proof. cbn. intuition discriminate. Qed.

Lemma includes_before_head (sep a b : jsstring) (c : Z) (rest : jsstring) :
  sep = c :: rest -> ~ In c rest ->
  includes a sep = false -> includes (c :: b) sep = false ->
  includes (a ++ c :: b) sep = false.
Proof.
  intros -> Once Ha Hb. apply includes_app; [exact Ha|exact Hb|].
  intros k p' Lt Ep NE.
  destruct (startsWith (c :: b) p') eqn:E; [|reflexivity].
  destruct (startsWith_head _ _ _ E NE) as (q & ->).
  assert (Hk : skipn k a <> []).
  { intros Z0. apply (f_equal (@List.length Z)) in Z0.
    rewrite length_skipn in Z0. simpl in Z0. lia. }
  destruct (skipn k a) as [|d a']; [contradiction|].
  simpl in Ep. inversion Ep as [[Hd Hrest]].
  exfalso. apply Once. rewrite Hrest. apply in_or_app. right. now left.
Qed.

(** The opening tag is nowhere in two texts joined by the closing tag when
    it is in neither. *)
Lemma think_across_end (x y : jsstring) :
  includes x THINK = false -> includes y THINK = false ->
  includes (x ++ END_THINK ++ y) THINK = false.
Proof.
  intros Hx Hy.
  assert (E : includes (END_THINK ++ y) THINK = false).
  { apply includes_app; [reflexivity|exact Hy|].
    intros k p' Lt Ep NE. exfalso.
    do 8 (destruct k as [|k]; [discriminate Ep|]).
    simpl in Lt. lia. }
  exact (includes_before_head THINK x _ 60 _ eq_refl think_starts_once Hx E).
Qed.

(** X8.  A message with one block of thoughts, free of further tags, is
    rendered in three parts: what is before the opening tag, the thoughts,
    and what follows the closing tag.  While the closing tag has not
    arrived, the thoughts are what follows the opening tag and there is no
    response; a message without the opening tag is one markdown block. *)
Theorem thoughts_are_set_apart (before thoughts response : jsstring) :
  includes before THINK = false ->
  includes thoughts THINK = false -> includes thoughts END_THINK = false ->
  includes response THINK = false -> includes response END_THINK = false ->
  renderMessageContent
    (before ++ THINK ++ thoughts ++ END_THINK ++ response)
  = WithThoughts before thoughts (Some response)
  /\ renderMessageContent (before ++ THINK ++ thoughts)
     = WithThoughts before thoughts None
  /\ renderMessageContent before = Markdown before.
Proof.
  intros Hb Ht Hte Hr Hre. unfold renderMessageContent. split; [|split].
  - rewrite (split_literal_first THINK before _ think_starts_once Hb).
    rewrite (split_literal_none THINK _ (think_across_end _ _ Ht Hr)).
    rewrite (split_literal_first END_THINK thoughts _ end_think_starts_once
               Hte).
    now rewrite (split_literal_none END_THINK response Hre).
  - rewrite (split_literal_first THINK before _ think_starts_once Hb).
    rewrite (split_literal_none THINK thoughts Ht).
    now rewrite (split_literal_none END_THINK thoughts Hte).
  - now rewrite (split_literal_none THINK before Hb).
Qed.

Lemma thoughts_are_set_apart_witness :
  renderMessageContent (js "Hm. <think>2 < 3, so</think>yes")
  = WithThoughts (js "Hm. ") (js "2 < 3, so") (Some (js "yes")).
Proof.
  exact (proj1 (thoughts_are_set_apart (js "Hm. ") (js "2 < 3, so")
                  (js "yes") eq_refl eq_refl eq_refl eq_refl eq_refl)).
Defined.

(** X9.  Only the first block of thoughts is rendered.  What follows a
    second opening tag never reaches the screen, and neither does what
    follows a second closing tag: the message is rendered as the message
    cut there. *)
Theorem later_blocks_are_not_rendered (a b c t r r2 : jsstring) :
  includes a THINK = false -> includes b THINK = false ->
  includes t THINK = false -> includes t END_THINK = false ->
  includes r THINK = false -> includes r END_THINK = false ->
  includes r2 THINK = false ->
  renderMessageContent (a ++ THINK ++ b ++ THINK ++ c)
  = renderMessageContent (a ++ THINK ++ b)
  /\ renderMessageContent
       (a ++ THINK ++ t ++ END_THINK ++ r ++ END_THINK ++ r2)
     = WithThoughts a t (Some r).
Proof.
  intros Ha Hb Ht Hte Hr Hre Hr2. unfold renderMessageContent. split.
  - rewrite !(split_literal_first THINK a _ think_starts_once Ha).
    rewrite (split_literal_first THINK b _ think_starts_once Hb).
    now rewrite (split_literal_none THINK b Hb).
  - rewrite (split_literal_first THINK a _ think_starts_once Ha).
    rewrite (split_literal_none THINK _
               (think_across_end _ _ Ht (think_across_end _ _ Hr Hr2))).
    rewrite (split_literal_first END_THINK t _ end_think_starts_once Hte).
    now rewrite (split_literal_first END_THINK r _ end_think_starts_once Hre).
Qed.

Lemma later_blocks_are_not_rendered_witness :
  renderMessageContent (js "A<think>B<think>C</think>D")
  = renderMessageContent (js "A<think>B")
  /\ renderMessageContent (js "A<think>B</think>C</think>D")
     = WithThoughts (js "A") (js "B") (Some (js "C")).
Proof.
  exact (later_blocks_are_not_rendered (js "A") (js "B") (js "C</think>D")
           (js "B") (js "C") (js "D")
           eq_refl eq_refl eq_refl eq_refl eq_refl eq_refl eq_refl).
Defined.

(** ** The names between apostrophes *)


Lemma span_name_spec (s : jsstring) :
  ~ In APOSTROPHE (fst (span_name s))
  /\ s = fst (span_name s) ++ snd (span_name s)
  /\ (snd (span_name s) = []
      \/ exists t, snd (span_name s) = APOSTROPHE :: t).
Proof.
  induction s as [|c s (N & E & R)]; cbn [span_name].
  - repeat split; [intros []|now left].
  - destruct (Z.eqb_spec c APOSTROPHE) as [->|Nc]; cbn [fst snd].
    + repeat split; [intros []|right; now exists s].
    + destruct (span_name s) as [run rest]. cbn [fst snd] in *.
      repeat split.
      * intros [H|H]; [now apply Nc|now apply N].
      * simpl. now rewrite <- E.
      * exact R.
Qed.

Lemma span_name_of_name (n t : jsstring) :
  ~ In APOSTROPHE n ->
  span_name (n ++ APOSTROPHE :: t) = (n, APOSTROPHE :: t).
Proof.
  induction n as [|c n IH]; intros N.
  - reflexivity.
  - cbn [app span_name].
    destruct (Z.eqb_spec c APOSTROPHE) as [->|_];
      [exfalso; apply N; now left|].
    rewrite IH; [reflexivity|]. intros H. apply N. now right.
Qed.

Lemma match_quoted_spec (s name : jsstring) (n : nat) :
  match_quoted s = Some (name, n) ->
  is_name name
  /\ n = (List.length name + 2)%nat
  /\ exists t, s = APOSTROPHE :: name ++ APOSTROPHE :: t.
Proof.
  unfold match_quoted. destruct s as [|c s]; [discriminate|].
  destruct (Z.eqb_spec c APOSTROPHE) as [->|_]; [|discriminate].
  destruct (span_name_spec s) as (N & E & R).
  destruct (span_name s) as [[|d run] [|q rest]]; try discriminate.
  cbn [fst snd] in *. intros H. inversion H; subst name n. clear H.
  split; [split; [discriminate|exact N]|]. split; [reflexivity|].
  destruct R as [R|(t & R)]; [discriminate|].
  inversion R; subst. now exists t.
Qed.

Lemma match_quoted_of_name (name t : jsstring) :
  is_name name ->
  match_quoted (APOSTROPHE :: name ++ APOSTROPHE :: t)
  = Some (name, (List.length name + 2)%nat).
Proof.
  intros [NE N]. unfold match_quoted. rewrite Z.eqb_refl.
  rewrite (span_name_of_name name t N).
  destruct name; [contradiction|reflexivity].
Qed.

Lemma exec_loop_skip (s : jsstring) :
  forall k, (k <= List.length s)%nat ->
            exec_loop k s = exec_loop 0 (skipn k s).
Proof.
  induction s as [|c s IH]; intros k Hk.
  - destruct k; [reflexivity|simpl in Hk; lia].
  - destruct k; [reflexivity|]. simpl in Hk |- *. apply IH. lia.
Qed.

(** X10.  Every name taken from the text is not empty and holds no
    apostrophe, whatever the text. *)
Theorem quoted_names_are_names (raw : jsstring) :
  Forall is_name (quoted_names raw).
Proof.
  unfold quoted_names. generalize 0%nat.
  induction raw as [|c raw IH]; intros k; [constructor|].
  cbn [exec_loop]. destruct k; [|apply IH].
  destruct (match_quoted (c :: raw)) as [[name n]|] eqn:E; [|apply IH].
  constructor; [|apply IH].
  exact (proj1 (match_quoted_spec _ _ _ E)).
Qed.

Lemma exec_loop_before (pre s : jsstring) :
  ~ In APOSTROPHE pre -> exec_loop 0 (pre ++ s) = exec_loop 0 s.
Proof.
  induction pre as [|c pre IH]; intros N; [reflexivity|].
  cbn [app exec_loop]. unfold match_quoted.
  destruct (Z.eqb_spec c APOSTROPHE) as [->|_];
    [exfalso; apply N; now left|].
  apply IH. intros H. apply N. now right.
Qed.

Lemma exec_loop_name (name t : jsstring) :
  is_name name ->
  exec_loop 0 (APOSTROPHE :: name ++ APOSTROPHE :: t)
  = name :: exec_loop 0 t.
Proof.
  intros Hn. cbn [exec_loop]. rewrite (match_quoted_of_name name t Hn).
  f_equal. rewrite exec_loop_skip by (rewrite length_app; simpl; lia).
  replace (List.length name + 2 - 1)%nat with (List.length name + 1)%nat
    by lia.
  rewrite skipn_app, skipn_all2 by lia.
  replace (List.length name + 1 - List.length name)%nat with 1%nat by lia.
  reflexivity.
Qed.

Lemma exec_loop_items (items : list (jsstring * jsstring))
    (tail : jsstring) :
  Forall (fun item => ~ In APOSTROPHE (fst item) /\ is_name (snd item))
    items ->
  exec_loop 0 (between_apostrophes items tail)
  = map snd items ++ exec_loop 0 tail.
Proof.
  unfold between_apostrophes.
  induction 1 as [|[sep name] items [Hsep Hname] _ IH]; [reflexivity|].
  cbn [flat_map fst snd map]. rewrite <- !app_assoc.
  rewrite (exec_loop_before sep _ Hsep). cbn [app] in IH |- *.
  rewrite (exec_loop_name name _ Hname). now rewrite IH.
Qed.

(** X11.  When the text under supported_models holds the names between
    apostrophes and no other apostrophe, whatever stands around them, as in
    ['a', 'b'], fetchModelList gives back exactly those names, in order,
    each name being not empty and free of apostrophes; an array under that
    key is given back as it is. *)
Theorem model_names_are_recovered (res : JsonResponse) (data : JSValue)
    (items : list (jsstring * jsstring)) (tail : jsstring) :
  json_ok res = true ->
  JSON.parse (json_text res) = Some data ->
  Forall (fun item => ~ In APOSTROPHE (fst item) /\ is_name (snd item))
    items ->
  ~ In APOSTROPHE tail ->
  quoted_names (between_apostrophes items tail) = map snd items
  /\ (get_property (js "supported_models") data
      = inr (JString (between_apostrophes items tail)) ->
      fetchModelList (inr res) = Models (map JString (map snd items)))
  /\ (forall raw,
         get_property (js "supported_models") data = inr (JArray raw) ->
         fetchModelList (inr res) = Models raw).
Proof.
  intros Hok Hparse Hn Ht.
  assert (Q : quoted_names (between_apostrophes items tail) = map snd items).
  { unfold quoted_names. rewrite (exec_loop_items items tail Hn).
    rewrite <- (app_nil_r tail), (exec_loop_before tail [] Ht).
    cbn. now rewrite app_nil_r. }
  split; [exact Q|]. unfold fetchModelList. rewrite Hok, Hparse. cbn [negb].
  split.
  - intros ->. now rewrite Q.
  - intros raw ->. reflexivity.
Qed.

Lemma model_names_are_recovered_witness :
  fetchModelList (inr two_models)
  = Models [JString (js "llama-3"); JString (js "qwen 2.5")].
Proof.
  refine (proj1 (proj2 (model_names_are_recovered two_models
                          (JObject
                             [(js "supported_models",
                               JString
                                 (between_apostrophes
                                    [(js "[", js "llama-3");
                                     (js ", ", js "qwen 2.5")] (js "]")))])
                          [(js "[", js "llama-3"); (js ", ", js "qwen 2.5")]
                          (js "]") eq_refl eq_refl _ _))
            eq_refl).
  - apply Forall_cons; [|apply Forall_cons; [|apply Forall_nil]];
      (split; [cbn; intuition discriminate|]);
      (split; [discriminate|cbn; intuition discriminate]).
  - cbn; intuition discriminate.
Defined.

(** ** From the server's text to the callback *)

Lemma run_encode (c : Z) :
  is_scalar_value c ->
  TextDecoder.utf8_run TextDecoder.utf8_init (utf8_encode c)
  = (TextDecoder.utf8_init, [c]).
Proof.
  intros Sc. destruct (Z.lt_ge_cases c 0x80) as [Lt|Ge].
  - unfold utf8_encode. unfold is_scalar_value in Sc.
    replace (c <? 128) with true by (symmetry; apply Z.ltb_lt; lia).
    cbn [TextDecoder.utf8_run].
    unfold TextDecoder.utf8_handler, TextDecoder.utf8_lead.
    cbn [TextDecoder.bytes_needed TextDecoder.utf8_init Z.eqb].
    replace (0 <=? c) with true by (symmetry; apply Z.leb_le; lia).
    replace (c <=? 127) with true by (symmetry; apply Z.leb_le; lia).
    reflexivity.
  - assert (E : exists x rest, utf8_encode c = [x] ++ rest /\ rest <> []).
    { unfold utf8_encode.
      replace (c <? 128) with false by (symmetry; apply Z.ltb_ge; lia).
      destruct (c <? 2048); [eexists _, _; split;
                               [reflexivity|discriminate]|].
      destruct (c <? 65536); eexists _, _; split;
        try reflexivity; discriminate. }
    destruct E as (x & rest & E & NE).
    destruct (Utf8Facts.run_split c [x] rest Sc Ge (eq_sym E)
                ltac:(discriminate) NE) as (st1 & R1 & R2).
    rewrite E, TextDecoderFacts.utf8_run_app, R1, R2. reflexivity.
Qed.

Lemma run_encode_all (cs : list Z) :
  Forall is_scalar_value cs ->
  TextDecoder.utf8_run TextDecoder.utf8_init (flat_map utf8_encode cs)
  = (TextDecoder.utf8_init, cs).
Proof.
  induction 1 as [|c cs Sc _ IH]; [reflexivity|].
  cbn [flat_map]. now rewrite TextDecoderFacts.utf8_run_app, run_encode, IH.
Qed.

Lemma decode_reads_concat (reads : list (list Z)) :
  forall d,
    snd (decode_reads d reads) = snd (TextDecoder.decode d (List.concat reads)).
Proof.
  induction reads as [|r reads IH]; intros d.
  - destruct d as [st seen]. reflexivity.
  - cbn [decode_reads List.concat]. rewrite TextDecoderFacts.decode_app.
    destruct (TextDecoder.decode d r) as [d1 t1].
    specialize (IH d1).
    destruct (decode_reads d1 reads) as [d2 t2].
    destruct (TextDecoder.decode d1 (List.concat reads)) as [d3 t3].
    cbn [snd] in *. now subst.
Qed.

Lemma decode_encoded (cs : list Z) :
  Forall is_scalar_value cs ->
  snd (TextDecoder.decode TextDecoder.create (flat_map utf8_encode cs))
  = flat_map utf16_units (strip_bom cs).
Proof.
  intros H. unfold TextDecoder.decode.
  change (TextDecoder.utf8 TextDecoder.create) with TextDecoder.utf8_init.
  rewrite (run_encode_all cs H).
  destruct cs as [|c cs]; [reflexivity|].
  cbn [TextDecoder.serialize TextDecoder.bom_seen TextDecoder.create
         strip_bom snd].
  reflexivity.
Qed.

(** X12.  A text sent as UTF-8 and read in any chunks: the texts the
    decoder gives for the successive reads, put one after the other, are
    the text in UTF-16, all characters of one to four bytes intact,
    without the byte-order mark if the text opens with one. *)
Theorem text_survives_chunking (cs : list Z) (reads : list (list Z)) :
  Forall is_scalar_value cs ->
  List.concat reads = flat_map utf8_encode cs ->
  snd (decode_reads TextDecoder.create reads)
  = flat_map utf16_units (strip_bom cs).
Proof.
  intros H E. now rewrite decode_reads_concat, E, decode_encoded.
Qed.

(** Greek alpha, the euro sign and a face, CE B1, E2 82 AC and
    F0 9F 98 80, read a byte or two at a time. *)
Lemma text_survives_chunking_witness :
  snd (decode_reads TextDecoder.create
         [[0xCE]; [0xB1; 0xE2]; [0x82]; [0xAC; 0xF0; 0x9F]; [0x98]; [0x80]])
  = [0x3B1; 0x20AC; 0xD83D; 0xDE00].
Proof.
  apply (text_survives_chunking [0x3B1; 0x20AC; 0x1F600]).
  - repeat constructor; unfold is_scalar_value; lia.
  - reflexivity.
Defined.

Lemma match_eol_other (c : Z) (s : jsstring) :
  c <> 10 -> c <> 13 -> match_eol (c :: s) = None.
Proof.
  intros N10 N13. unfold match_eol.
  destruct (Z.eqb_spec c 13); [contradiction|].
  destruct (Z.eqb_spec c 10); [contradiction|reflexivity].
Qed.

Lemma no_match_inside (m : matcher) (line r : jsstring) (k : nat) :
  (forall c s, c <> 10 -> c <> 13 -> m (c :: s) = None) ->
  no_line_break line -> (k < List.length line)%nat ->
  m (skipn k (line ++ r)) = None.
Proof.
  intros Hm NB Lt. rewrite skipn_app.
  replace (k - List.length line)%nat with 0%nat by lia.
  change (skipn 0 r) with r.
  destruct (skipn k line) as [|c t] eqn:E.
  - apply (f_equal (@List.length Z)) in E. rewrite length_skipn in E.
    simpl in E. lia.
  - assert (In c line).
    { rewrite <- (firstn_skipn k line), E. apply in_or_app. right. now left. }
    destruct (NB c H). now apply Hm.
Qed.

Lemma blank_line_other (c : Z) (s : jsstring) :
  c <> 10 -> c <> 13 -> match_blank_line (c :: s) = None.
Proof.
  intros N10 N13. unfold match_blank_line.
  now rewrite (match_eol_other c s N10 N13).
Qed.

Lemma split_frame (eol line rest : jsstring) :
  eol = LF \/ eol = CR ++ LF -> no_line_break line ->
  split match_blank_line (line ++ eol ++ eol ++ rest)
  = line :: split match_blank_line rest.
Proof.
  intros [->| ->] NB.
  - rewrite (split_first match_blank_line blank_fits line _ 2);
      [reflexivity| |reflexivity].
    intros k Hk. now apply no_match_inside; [apply blank_line_other| |].
  - rewrite (split_first match_blank_line blank_fits line _ 4);
      [reflexivity| |reflexivity].
    intros k Hk. now apply no_match_inside; [apply blank_line_other| |].
Qed.

Lemma split_frames (eol : jsstring) (lines : list jsstring)
    (rest : jsstring) :
  eol = LF \/ eol = CR ++ LF -> Forall no_line_break lines ->
  split match_blank_line (frames eol lines ++ rest)
  = lines ++ split match_blank_line rest.
Proof.
  intros He H. induction H as [|line lines NB _ IH]; [reflexivity|].
  cbn [frames flat_map]. fold (frames eol lines).
  rewrite <- !app_assoc.
  rewrite (split_frame eol line _ He NB). cbn [app]. now rewrite IH.
Qed.

Lemma split_one_line (line : jsstring) :
  no_line_break line -> split match_eol line = [line].
Proof.
  intros NB. unfold split.
  rewrite (split_go_no_match match_eol line); [reflexivity|].
  intros j. destruct (Nat.lt_ge_cases j (List.length line)) as [Lt|Ge].
  - rewrite <- (app_nil_r line) at 1.
    now apply no_match_inside; [apply match_eol_other| |].
  - now rewrite skipn_all2.
Qed.

Lemma for_events_one_line_each (Number_toString : jsstring -> jsstring)
    W (onChunk : jsstring -> W -> W) (lines : list jsstring) :
  Forall no_line_break lines ->
  forall w,
    for_events Number_toString W onChunk lines w
    = for_lines Number_toString W onChunk lines w.
Proof.
  induction 1 as [|line lines NB _ IH]; intros w; [reflexivity|].
  cbn [for_events]. rewrite (split_one_line line NB). cbn [for_lines].
  destruct (handle_line Number_toString W onChunk line w) as [[| |e] w'];
    [apply IH|reflexivity|reflexivity].
Qed.

Lemma pop_frames (eol : jsstring) (lines : list jsstring)
    (partial : jsstring) :
  eol = LF \/ eol = CR ++ LF ->
  Forall no_line_break lines -> no_line_break partial ->
  pop (split match_blank_line (frames eol lines ++ partial))
  = (lines, partial).
Proof.
  intros He H Hp.
  rewrite (split_frames eol lines partial He H).
  assert (S1 : split match_blank_line partial = [partial]).
  { unfold split.
    rewrite (split_go_no_match match_blank_line partial); [reflexivity|].
    intros j. destruct (Nat.lt_ge_cases j (List.length partial)) as [Lt|Ge].
    - rewrite <- (app_nil_r partial) at 1.
      now apply no_match_inside; [apply blank_line_other| |].
    - now rewrite skipn_all2. }
  rewrite S1. unfold pop. now rewrite removelast_last, last_last.
Qed.

(** X13.  Events written one line each, every line followed by a blank
    line, with LF or with CR LF as the line break: the split gives back
    exactly those lines, in order, and keeps as the buffer what follows the
    last blank line; the lines are then handled one after the other. *)
Theorem framed_lines_are_recovered (Number_toString : jsstring -> jsstring)
    W (onChunk : jsstring -> W -> W) (eol : jsstring)
    (lines : list jsstring) (partial : jsstring) (w : W) :
  eol = LF \/ eol = CR ++ LF ->
  Forall no_line_break lines -> no_line_break partial ->
  pop (split match_blank_line (frames eol lines ++ partial))
  = (lines, partial)
  /\ for_events Number_toString W onChunk lines w
     = for_lines Number_toString W onChunk lines w.
Proof.
  intros He H Hp. split; [now apply pop_frames|].
  now apply for_events_one_line_each.
Qed.

Lemma framed_lines_are_recovered_witness :
  pop (split match_blank_line
         (js "data: a" ++ CR ++ LF ++ CR ++ LF
          ++ js ": ping" ++ CR ++ LF ++ CR ++ LF ++ js "data: b"))
  = ([js "data: a"; js ": ping"], js "data: b").
Proof.
  refine (proj1 (framed_lines_are_recovered printed_lexeme (list jsstring)
                   record_chunk (CR ++ LF) [js "data: a"; js ": ping"]
                   (js "data: b") [] (or_intror eq_refl) _ _)).
  - apply Forall_cons; [|apply Forall_cons; [|apply Forall_nil]];
      intros c H; cbn in H; intuition (subst; discriminate).
  - intros c H; cbn in H; intuition (subst; discriminate).
Defined.

(** The parser reads back the string a JSON string literal denotes. *)
Lemma string_chars_decodes (body s : jsstring) :
  json_chars body s ->
  forall acc rest,
    JSON.string_chars acc (body ++ 34 :: rest) = JSON.Ok (rev acc ++ s) rest.
Proof.
  induction 1 as [|c body s Lo N34 N92 _ IH|e u body s He _ IH
                  |h1 h2 h3 h4 u body s Hh _ IH]; intros acc rest.
  - cbn. now rewrite app_nil_r.
  - cbn [app JSON.string_chars].
    destruct (Z.eqb_spec c 34); [contradiction|].
    destruct (Z.eqb_spec c 92); [contradiction|].
    replace (c <? 32) with false by (symmetry; apply Z.ltb_ge; lia).
    rewrite IH. cbn [rev]. now rewrite <- app_assoc.
  - cbn [app JSON.string_chars]. cbn [Z.eqb Pos.eqb].
    destruct (Z.eqb_spec e 117) as [->|_]; [discriminate He|].
    rewrite He, IH. cbn [rev]. now rewrite <- app_assoc.
  - cbn [app JSON.string_chars]. cbn [Z.eqb Pos.eqb].
    rewrite Hh, IH. cbn [rev]. now rewrite <- app_assoc.
Qed.

Lemma escape_printable (e u : Z) : JSON.escape e = Some u -> 0x20 <= e.
Proof.
  unfold JSON.escape.
  repeat match goal with
         | |- context [if ?a =? ?b then _ else _] =>
             destruct (Z.eqb_spec a b); [intros _; lia|]
         end.
  discriminate.
Qed.

Lemma hex_printable (h : Z) (v : Z) : JSON.hex_value h = Some v -> 0x20 <= h.
Proof.
  unfold JSON.hex_value.
  destruct (Z.leb_spec 48 h); cbn [andb]; [intros _; lia|].
  destruct (Z.leb_spec 65 h); cbn [andb]; [intros _; lia|].
  destruct (Z.leb_spec 97 h); cbn [andb]; [intros _; lia|discriminate].
Qed.

Lemma hex4_printable (h1 h2 h3 h4 u : Z) :
  JSON.hex4 h1 h2 h3 h4 = Some u ->
  0x20 <= h1 /\ 0x20 <= h2 /\ 0x20 <= h3 /\ 0x20 <= h4.
Proof.
  unfold JSON.hex4.
  destruct (JSON.hex_value h1) eqn:E1; [|discriminate].
  destruct (JSON.hex_value h2) eqn:E2; [|discriminate].
  destruct (JSON.hex_value h3) eqn:E3; [|discriminate].
  destruct (JSON.hex_value h4) eqn:E4; [|discriminate].
  intros _. repeat split; eapply hex_printable; eassumption.
Qed.

Lemma json_chars_printable (body s : jsstring) :
  json_chars body s -> forall c, In c body -> 0x20 <= c.
Proof.
  induction 1 as [|c body s Lo N34 N92 _ IH|e u body s He _ IH
                  |h1 h2 h3 h4 u body s Hh _ IH]; intros x Hx.
  - destruct Hx.
  - destruct Hx as [<-|Hx]; [exact Lo|now apply IH].
  - destruct Hx as [<-|[<-|Hx]];
      [lia|exact (escape_printable _ _ He)|now apply IH].
  - destruct (hex4_printable _ _ _ _ _ Hh) as (P1 & P2 & P3 & P4).
    destruct Hx as [<-|[<-|[<-|[<-|[<-|[<-|Hx]]]]]]; try lia.
    now apply IH.
Qed.

Lemma text_object_shape (body : jsstring) :
  text_object (DQ ++ body ++ DQ)
  = [123; 34; 116; 101; 120; 116; 34; 58; 34] ++ body ++ [34; 125].
Proof.
  unfold text_object, DQ. cbn. now rewrite <- app_assoc.
Qed.

Lemma value_text_object (body s : jsstring) (fuel : nat) :
  json_chars body s ->
  JSON.value (S (S (S fuel))) (text_object (DQ ++ body ++ DQ))
  = JSON.Ok (JObject [(js "text", JString s)]) [].
Proof.
  intros H. rewrite text_object_shape.
  repeat cbn [app JSON.value JSON.skip_ws JSON.is_ws Z.eqb Pos.eqb orb
                JSON.members JSON.string_chars rev
                Z.ltb Z.compare Pos.compare Pos.compare_cont].
  rewrite (string_chars_decodes body s H [] [125]).
  reflexivity.
Qed.

Lemma parse_text_object (body s : jsstring) :
  json_chars body s ->
  JSON.parse (text_object (DQ ++ body ++ DQ))
  = Some (JObject [(js "text", JString s)]).
Proof.
  intros H. unfold JSON.parse, JSON.parse_with.
  assert (F : exists fuel,
             (2 * List.length (text_object (DQ ++ body ++ DQ)) + 1
              = S (S (S fuel)))%nat).
  { rewrite text_object_shape. cbn [app List.length].
    eexists. rewrite Nat.mul_succ_r, Nat.add_comm. cbn. reflexivity. }
  destruct F as (fuel & ->).
  now rewrite (value_text_object body s fuel H).
Qed.

Lemma trim_tight (c d : Z) (s : jsstring) :
  is_white_space c = false -> is_white_space d = false ->
  trim (c :: s ++ [d]) = c :: s ++ [d].
Proof.
  intros Wc Wd. unfold trim, trimEnd. cbn [trimStart]. rewrite Wc.
  change (c :: s ++ [d]) with ((c :: s) ++ [d]).
  rewrite rev_app_distr. cbn [rev app trimStart]. rewrite Wd.
  change (d :: rev s ++ [c]) with ([d] ++ rev (c :: s)).
  rewrite rev_app_distr, rev_involutive. reflexivity.
Qed.

Lemma text_line_starts (body : jsstring) :
  startsWith (text_line body) (js "data:") = true.
Proof.
  unfold text_line.
  change (js "data: " ++ text_object (DQ ++ body ++ DQ))
    with (js "data:" ++ [32] ++ text_object (DQ ++ body ++ DQ)).
  apply startsWith_app_self.
Qed.

(** The raw payload of a text line is its JSON object. *)
Lemma text_line_raw (body : jsstring) :
  trim (slice (text_line body) (List.length (js "data:")))
  = text_object (DQ ++ body ++ DQ).
Proof.
  unfold text_line.
  change (js "data: " ++ text_object (DQ ++ body ++ DQ))
    with (js "data:" ++ [32] ++ text_object (DQ ++ body ++ DQ)).
  rewrite slice_app_self.
  replace ([32] ++ text_object (DQ ++ body ++ DQ))
    with ([32] ++ text_object (DQ ++ body ++ DQ) ++ [])
    by (now rewrite app_nil_r).
  rewrite (trim_padded [32] _ [])
    by (intros c Hc; cbn in Hc; intuition (subst; reflexivity)).
  rewrite text_object_shape.
  change ([123; 34; 116; 101; 120; 116; 34; 58; 34] ++ body ++ [34; 125])
    with (123 :: ([34; 116; 101; 120; 116; 34; 58; 34] ++ body
                  ++ [34; 125])).
  replace ([34; 116; 101; 120; 116; 34; 58; 34] ++ body ++ [34; 125])
    with (([34; 116; 101; 120; 116; 34; 58; 34] ++ body ++ [34]) ++ [125])
    by (now rewrite <- !app_assoc).
  now apply trim_tight.
Qed.

Lemma text_object_not_done (body : jsstring) :
  jsstring_eqb (text_object (DQ ++ body ++ DQ)) DONE = false.
Proof. rewrite text_object_shape. reflexivity. Qed.

Lemma handle_text_line_other (Number_toString : jsstring -> jsstring)
    W (onChunk : jsstring -> W -> W) (body s : jsstring) (w : W) :
  json_chars body s -> s <> DONE ->
  handle_line Number_toString W onChunk (text_line body) w
  = (Continue, onChunk s w).
Proof.
  intros H Hs. unfold handle_line.
  rewrite text_line_starts, text_line_raw, text_object_not_done.
  rewrite (parse_text_object body s H).
  cbn [negb get_text own_property fold_left fst snd].
  change (jsstring_eqb (js "text") (js "text")) with true. cbv iota.
  cbn [strict_eq_string]. now rewrite (jsstring_eqb_neq _ _ Hs).
Qed.

(** X14.  A payload line that carries a text as a JSON string, however the
    string is escaped: the callback is called on exactly that text, escapes
    resolved, and the loop goes on; when the text is the sentinel, the
    stream ends there instead. *)
Theorem text_line_delivers_text (Number_toString : jsstring -> jsstring)
    W (onChunk : jsstring -> W -> W) (body s : jsstring) (w : W) :
  json_chars body s ->
  handle_line Number_toString W onChunk (text_line body) w
  = if jsstring_eqb s DONE then (Return_cancelled, w)
    else (Continue, onChunk s w).
Proof.
  intros H. unfold handle_line.
  rewrite text_line_starts, text_line_raw, text_object_not_done.
  rewrite (parse_text_object body s H).
  cbn [negb get_text own_property fold_left fst snd].
  change (jsstring_eqb (js "text") (js "text")) with true. cbv iota.
  cbn [strict_eq_string].
  destruct (jsstring_eqb s DONE); reflexivity.
Qed.

(** The text holds a quote, a backslash, a line break, e with an acute
    accent written as an escape, and a tab written as a short escape. *)
Lemma text_line_delivers_text_witness :
  handle_line printed_lexeme (list jsstring) record_chunk
    (text_line (js "a\" ++ DQ ++ js "b\\c\nd\u00e9\t")) []
  = (Continue, [[97; 34; 98; 92; 99; 10; 100; 0xE9; 9]]).
Proof.
  apply (text_line_delivers_text printed_lexeme (list jsstring) record_chunk
           (js "a\" ++ DQ ++ js "b\\c\nd\u00e9\t")
           [97; 34; 98; 92; 99; 10; 100; 0xE9; 9] []).
  cbn.
  apply chars_plain; [lia|discriminate|discriminate|].
  apply (chars_escape 34 34); [reflexivity|].
  apply chars_plain; [lia|discriminate|discriminate|].
  apply (chars_escape 92 92); [reflexivity|].
  apply chars_plain; [lia|discriminate|discriminate|].
  apply (chars_escape 110 10); [reflexivity|].
  apply chars_plain; [lia|discriminate|discriminate|].
  apply (chars_unicode 48 48 101 57 0xE9); [reflexivity|].
  apply (chars_escape 116 9); [reflexivity|].
  apply chars_nil.
Defined.

Lemma text_line_no_break (body s : jsstring) :
  json_chars body s -> no_line_break (text_line body).
Proof.
  intros H c Hc. assert (P : 0x20 <= c); [|lia].
  unfold text_line in Hc. rewrite text_object_shape in Hc.
  apply in_app_or in Hc. destruct Hc as [Hc|Hc];
    [cbn in Hc; intuition (subst; lia)|].
  apply in_app_or in Hc. destruct Hc as [Hc|Hc];
    [cbn in Hc; intuition (subst; lia)|].
  apply in_app_or in Hc. destruct Hc as [Hc|Hc];
    [exact (json_chars_printable body s H c Hc)
    |cbn in Hc; intuition (subst; lia)].
Qed.

Lemma text_lines_no_break (bodies texts : list jsstring) :
  Forall2 json_chars bodies texts ->
  Forall no_line_break (map text_line bodies).
Proof.
  induction 1 as [|body s bodies texts H _ IH]; constructor;
    [exact (text_line_no_break body s H)|exact IH].
Qed.

Lemma for_lines_text_lines (Number_toString : jsstring -> jsstring)
    (bodies texts : list jsstring) :
  Forall2 json_chars bodies texts ->
  Forall (fun s => s <> DONE) texts ->
  forall tr,
    for_lines Number_toString (list jsstring) record_chunk
      (map text_line bodies) tr
    = (Continue, tr ++ texts).
Proof.
  induction 1 as [|body s bodies texts H _ IH]; intros ND tr.
  - cbn. now rewrite app_nil_r.
  - inversion ND as [|? ? Hs ND']; subst.
    cbn [map for_lines].
    rewrite (handle_text_line_other Number_toString _ _ body s tr H Hs).
    rewrite (IH ND').
    unfold record_chunk. now rewrite <- app_assoc.
Qed.

Lemma strip_bom_of_text (ss : list Z) (text : jsstring) :
  flat_map utf16_units ss = text -> hd 0 text <> 0xFEFF ->
  strip_bom ss = ss.
Proof.
  intros E Hd. destruct ss as [|c ss]; [reflexivity|].
  cbn [strip_bom]. destruct (Z.eqb_spec c 0xFEFF) as [->|_]; [|reflexivity].
  exfalso. apply Hd. rewrite <- E. reflexivity.
Qed.

(** X15.  From the server to the callback.  The server has some texts to
    send; it writes each as a JSON string, escaped as it likes, in an
    object under text, on a data: line followed by a blank line, with LF or
    CR LF as the line break, and sends the whole as UTF-8.  However the
    bytes are cut into reads, the callback is called once for each text, in
    order, on exactly that text, provided none of the texts is the
    sentinel; then the function returns, or throws if the last read
    fails. *)
Theorem texts_reach_the_callback (Number_toString : jsstring -> jsstring)
    (eol : jsstring) (bodies texts : list jsstring) (ss : list Z)
    (reads : list (list Z)) (ending : option exn) :
  eol = LF \/ eol = CR ++ LF ->
  Forall2 json_chars bodies texts ->
  Forall (fun s => s <> DONE) texts ->
  Forall is_scalar_value ss ->
  flat_map utf16_units ss = frames eol (map text_line bodies) ->
  List.concat reads = flat_map utf8_encode ss ->
  fragments Number_toString (ok_response reads ending)
  = (match ending with None => Returned false | Some e => Threw e end,
     texts).
Proof.
  intros He Hb Hd Hs Hu Hr. unfold fragments, chatWithLLM, ok_response.
  cbn [ok negb body chunks failure].
  rewrite (read_loop_chunking Number_toString (list jsstring) _ reads
             [List.concat reads] ending [])
    by (cbn [List.concat]; now rewrite app_nil_r).
  rewrite Hr. cbn [read_loop].
  pose proof (decode_encoded ss Hs) as Ht.
  destruct (TextDecoder.decode TextDecoder.create (flat_map utf8_encode ss))
    as [d text]. cbn [snd] in Ht. subst text.
  rewrite (strip_bom_of_text ss _ Hu)
    by (destruct bodies; [|cbn]; discriminate).
  rewrite Hu. cbn [app].
  pose proof (text_lines_no_break bodies texts Hb) as NB.
  rewrite <- (app_nil_r (frames eol (map text_line bodies))).
  rewrite (pop_frames eol (map text_line bodies) [] He NB
             ltac:(intros c [])).
  rewrite (for_events_one_line_each Number_toString (list jsstring) _ _ NB).
  change (fun chunk tr => tr ++ [chunk]) with record_chunk.
  rewrite (for_lines_text_lines Number_toString bodies texts Hb Hd []).
  cbn [read_loop app]. destruct ending; reflexivity.
Qed.


Lemma texts_reach_the_callback_witness :
  fragments printed_lexeme (ok_response two_texts_reads None)
  = (Returned false, [js "caf" ++ [0xE9] ++ js " " ++ DQ; js "ok"]).
Proof.
  apply (texts_reach_the_callback printed_lexeme (CR ++ LF) two_texts_bodies
           [js "caf" ++ [0xE9] ++ js " " ++ DQ; js "ok"]
           two_texts_scalars two_texts_reads None).
  - now right.
  - constructor; [|constructor; [|constructor]]; cbn.
    + repeat (apply chars_plain; [lia|discriminate|discriminate|]).
      apply (chars_escape 34 34); [reflexivity|apply chars_nil].
    + repeat (apply chars_plain; [lia|discriminate|discriminate|]).
      apply chars_nil.
  - constructor; [discriminate|constructor; [discriminate|constructor]].
  - unfold two_texts_scalars. cbn.
    repeat (constructor; [unfold is_scalar_value; lia|]). constructor.
  - reflexivity.
  - reflexivity.
Defined.
